(** * ee547-hw1, problem 3: the Processor and the Analyzer

    A shallow embedding of [problem3/processor/process.py] and
    [problem3/analyzer/analyze.py], and the properties of the pipeline
    that the specification states about them.

    Conventions of the model.
    - A Python [str] is a list of characters; a character is a code
      point below 256 ([ascii]).  On that range the whitespace test of
      [str.split], [str.strip] and of the regular-expression class [\s]
      is [is_space], and [re.IGNORECASE] relates exactly the letters
      [A-Z] to [a-z] for the ASCII literals the patterns contain.
    - Python's true division of two integers is modelled by the exact
      rational quotient (type [Q]); the float the interpreter returns is
      that quotient rounded to nearest, so that equalities between
      quotients and the bounds 0 and 1 carry over.
    - A directory is a finite map from file names to file contents;
      [os.listdir] enumerates its keys in an order the program does not
      control, which is why both stages sort. *)

From Stdlib Require Import QArith Ascii String.
From stdpp Require Import gmap strings list sorting.

Local Open Scope string_scope.
Local Open Scope list_scope.
Local Open Scope nat_scope.

(** ** Strings *)

Notation str := (list ascii).

Definition str_of (s : string) : str := String.list_ascii_of_string s.
Coercion str_of : string >-> list.

Module Str.

Definition code (c : ascii) : N := N_of_ascii c.

(** Whitespace as [str.isspace] sees it, for code points below 256. *)
Definition is_space (c : ascii) : bool :=
  let n := code c in
  ((9 <=? n) && (n <=? 13) || (28 <=? n) && (n <=? 32)
   || (n =? 133) || (n =? 160))%N.

Definition lower (c : ascii) : ascii :=
  let n := code c in
  if ((65 <=? n) && (n <=? 90))%N then ascii_of_N (n + 32) else c.

Definition eqb (a b : ascii) : bool := bool_decide (a = b).

(** [s.startswith(p)] *)
Fixpoint startswith (p s : str) : bool :=
  match p, s with
  | [], _ => true
  | a :: p', b :: s' => eqb a b && startswith p' s'
  | _ :: _, [] => false
  end.

(** [s.endswith(p)] *)
Definition endswith (s p : str) : bool :=
  startswith (reverse p) (reverse s).

(** [s.lstrip()], [s.strip()] *)
Fixpoint lstrip (s : str) : str :=
  match s with
  | c :: s' => if is_space c then lstrip s' else s
  | [] => []
  end.

Definition strip (s : str) : str :=
  reverse (lstrip (reverse (lstrip s))).

(** [s.split()]: the maximal runs of non-whitespace characters.  [tok]
    is the token being read, most recent character first. *)
Fixpoint split_go (tok : str) (s : str) : list str :=
  match s with
  | [] => match tok with [] => [] | _ => [reverse tok] end
  | c :: s' =>
      if is_space c
      then match tok with
           | [] => split_go [] s'
           | _ => reverse tok :: split_go [] s'
           end
      else split_go (c :: tok) s'
  end.

Definition split (s : str) : list str := split_go [] s.

(** The scans below walk the string once; after an occurrence of the
    needle at the current position, [skip] counts the characters of
    that occurrence still to be passed over, so that occurrences are
    taken left to right and do not overlap. *)

(** [s.count(sub)], [sub] not empty. *)
Fixpoint count_from (sub : str) (skip : nat) (s : str) : nat :=
  match s with
  | [] => 0
  | _ :: s' =>
      match skip with
      | S n => count_from sub n s'
      | O => if startswith sub s
             then S (count_from sub (length sub - 1) s')
             else count_from sub 0 s'
      end
  end.

Definition count (s sub : str) : nat := count_from sub 0 s.

(** [s.replace(old, new)], [old] not empty. *)
Fixpoint replace_from (old new : str) (skip : nat) (s : str) : str :=
  match s with
  | [] => []
  | c :: s' =>
      match skip with
      | S n => replace_from old new n s'
      | O => if startswith old s
             then new ++ replace_from old new (length old - 1) s'
             else c :: replace_from old new 0 s'
      end
  end.

Definition replace (s old new : str) : str := replace_from old new 0 s.

(** [s.split(sep)], [sep] not empty: always at least one block. *)
Fixpoint split_sep_from (sep : str) (skip : nat) (cur : str) (s : str)
  : list str :=
  match s with
  | [] => [reverse cur]
  | c :: s' =>
      match skip with
      | S n => split_sep_from sep n cur s'
      | O => if startswith sep s
             then reverse cur :: split_sep_from sep (length sep - 1) [] s'
             else split_sep_from sep 0 (c :: cur) s'
      end
  end.

Definition split_sep (s sep : str) : list str := split_sep_from sep 0 [] s.

(** [sep.join(parts)] *)
Fixpoint join (sep : str) (parts : list str) : str :=
  match parts with
  | [] => []
  | [p] => p
  | p :: rest => p ++ sep ++ join sep rest
  end.

(** Truth value of a string: non-empty. *)
Definition truthy (s : str) : bool :=
  match s with [] => false | _ => true end.

(** Comparison of strings, code point by code point, as [sorted] uses
    it on file names. *)
Fixpoint leb (a b : str) : bool :=
  match a, b with
  | [], _ => true
  | _ :: _, [] => false
  | x :: a', y :: b' =>
      if (code x <? code y)%N then true
      else if (code y <? code x)%N then false
      else leb a' b'
  end.

Definition le (a b : str) : Prop := leb a b = true.
Definition lt (a b : str) : Prop := le a b ∧ a ≠ b.

End Str.

(** ** Regular expressions

    Every pattern of the program is a sequence of one-character atoms,
    each with a quantifier.  The matcher is the backtracking one of
    [re]: alternatives are tried in priority order (a greedy quantifier
    takes a character first, a lazy one leaves it first) and the first
    success wins.  A match is returned as the segment of input each atom
    consumed, with the input that remains. *)

Module Re.

Inductive quant := One | Opt | Star | Plus | LazyStar.

Record atom := Atom { accepts : ascii → bool; how : quant }.

Definition regex := list atom.

Definition found := option (list str * str).

(** Start the segment of the current atom. *)
Definition opened (r : found) : found :=
  match r with
  | Some (segs, rest) => Some ([] :: segs, rest)
  | None => None
  end.

(** Add a consumed character to the segment of the current atom. *)
Definition pushed (c : ascii) (r : found) : found :=
  match r with
  | Some (seg :: segs, rest) => Some ((c :: seg) :: segs, rest)
  | _ => None
  end.

Definition orelse (r1 r2 : found) : found :=
  match r1 with Some _ => r1 | None => r2 end.

Section quantifiers.
Variable ok : ascii → bool.
Variable k : str → found.

Definition one (s : str) : found :=
  match s with
  | c :: s' => if ok c then pushed c (opened (k s')) else None
  | [] => None
  end.

Definition opt (s : str) : found :=
  match s with
  | c :: s' =>
      if ok c then orelse (pushed c (opened (k s'))) (opened (k s))
      else opened (k s)
  | [] => opened (k s)
  end.

Fixpoint star (s : str) : found :=
  match s with
  | c :: s' =>
      if ok c then orelse (pushed c (star s')) (opened (k s))
      else opened (k s)
  | [] => opened (k s)
  end.

Definition plus (s : str) : found :=
  match s with
  | c :: s' => if ok c then pushed c (star s') else None
  | [] => None
  end.

Fixpoint lazy_star (s : str) : found :=
  orelse (opened (k s))
    match s with
    | c :: s' => if ok c then pushed c (lazy_star s') else None
    | [] => None
    end.
End quantifiers.

Fixpoint exec (p : regex) : str → found :=
  match p with
  | [] => λ s, Some ([], s)
  | a :: p' =>
      match how a with
      | One => one (accepts a) (exec p')
      | Opt => opt (accepts a) (exec p')
      | Star => star (accepts a) (exec p')
      | Plus => plus (accepts a) (exec p')
      | LazyStar => lazy_star (accepts a) (exec p')
      end
  end.

(** Length of the match at the start of [s], if there is one. *)
Definition match_length (p : regex) (s : str) : option nat :=
  match exec p s with
  | Some (segs, _) => Some (length (concat segs))
  | None => None
  end.

(** [re.sub(p, repl, s)] for a constant replacement.  [skip] is as in
    [Str.replace_from].  A zero-length match is replaced where it
    stands and the scan moves on by one character; no pattern of the
    program has one (see [min_length]). *)
Fixpoint sub_from (p : regex) (repl : str) (skip : nat) (s : str) : str :=
  match s with
  | [] => match exec p [] with Some _ => repl | None => [] end
  | c :: s' =>
      match skip with
      | S n => sub_from p repl n s'
      | O =>
          match match_length p s with
          | Some (S n) => repl ++ sub_from p repl n s'
          | Some O => repl ++ c :: sub_from p repl 0 s'
          | None => c :: sub_from p repl 0 s'
          end
      end
  end.

Definition sub (p : regex) (repl : str) (s : str) : str :=
  sub_from p repl 0 s.

(** [re.findall(p, s)] for a pattern with one group, the atom at
    index [g]: the text of that group in each match, left to right. *)
Definition group (g : nat) (r : list str * str) : str :=
  default [] (r.1 !! g).

Fixpoint findall_from (p : regex) (g : nat) (skip : nat) (s : str)
  : list str :=
  match s with
  | [] => match exec p [] with Some r => [group g r] | None => [] end
  | _ :: s' =>
      match skip with
      | S n => findall_from p g n s'
      | O =>
          match exec p s with
          | Some r =>
              group g r :: findall_from p g (length (concat r.1) - 1) s'
          | None => findall_from p g 0 s'
          end
      end
  end.

Definition findall (p : regex) (g : nat) (s : str) : list str :=
  findall_from p g 0 s.

(** Atoms. *)
Definition any : ascii → bool := λ _, true.
Definition chr (c : ascii) : ascii → bool := λ x, Str.eqb x c.
Definition is_ci (c : ascii) : ascii → bool :=
  λ x, Str.eqb (Str.lower x) (Str.lower c).
Definition none_of (cs : str) : ascii → bool :=
  λ x, negb (existsb (Str.eqb x) cs).
Definition one_of (cs : str) : ascii → bool :=
  λ x, existsb (Str.eqb x) cs.

(** A literal under [re.IGNORECASE]. *)
Definition lit_ci (s : str) : regex := map (λ c, Atom (is_ci c) One) s.

(** The least number of characters a match consumes. *)
Definition min_length (p : regex) : nat :=
  sum_list (map (λ a, match how a with One | Plus => 1 | _ => 0 end) p).

End Re.

(** ** Python values shared by the two stages *)

Module Py.

Inductive exn :=
| JSONDecodeError | UnicodeDecodeError | FileNotFoundError | KeyError
| TypeError | AttributeError | IndexError | ZeroDivisionError.

(** The result of running a piece of code that may raise. *)
Inductive result (A : Type) :=
| Ok (a : A)
| Raise (e : exn).
Arguments Ok {A} a.
Arguments Raise {A} e.

Definition bind {A B} (m : result A) (f : A → result B) : result B :=
  match m with
  | Ok a => f a
  | Raise e => Raise e
  end.

(** A list comprehension, or a loop that appends, whose body may raise. *)
Fixpoint for_each {A B} (f : A → result B) (l : list A) : result (list B) :=
  match l with
  | [] => Ok []
  | x :: l' =>
      bind (f x) (λ y, bind (for_each f l') (λ ys, Ok (y :: ys)))
  end.

(** A loop that updates its variables, whose body may raise. *)
Fixpoint for_loop {A S} (body : S → A → result S) (l : list A) (s : S)
  : result S :=
  match l with
  | [] => Ok s
  | x :: l' => bind (body s x) (for_loop body l')
  end.

(** [range(a, b)] *)
Definition range (a b : nat) : list nat := seq a (b - a).

(** [l[i]] for [i] not negative. *)
Definition index {A} (l : list A) (i : nat) : result A :=
  match l !! i with
  | Some x => Ok x
  | None => Raise IndexError
  end.

(** [a / b] on two non-negative integers. *)
Definition truediv (a b : nat) : result Q :=
  if decide (b = 0) then Raise ZeroDivisionError
  else Ok (Z.of_nat a # Pos.of_nat b)%Q.

(** [sorted(l)] for the order [leb]: a stable sort, here by insertion. *)
Fixpoint insert {A} (leb : A → A → bool) (x : A) (l : list A) : list A :=
  match l with
  | [] => [x]
  | y :: l' => if leb x y then x :: l else y :: insert leb x l'
  end.

Fixpoint sorted {A} (leb : A → A → bool) (l : list A) : list A :=
  match l with
  | [] => []
  | x :: l' => insert leb x (sorted leb l')
  end.

(** [os.listdir(d)] *)
Definition listdir {A} (d : gmap str A) : list str := (map_to_list d).*1.

(** [os.path.join(d, name)] for a file name without separator. *)
Definition path_join (d name : str) : str := d ++ str_of "/" ++ name.

End Py.

#[global] Instance result_bind : MBind Py.result := λ A B f m, Py.bind m f.

(** JSON values as [json.load] returns them and [json.dump] takes them;
    a number is given by its value. *)
Module Json.

#[warnings="-register-all"]
Inductive value :=
| Null
| Bool (b : bool)
| Num (q : Q)
| String (s : str)
| Array (l : list value)
| Object (kv : list (str * value)).

Definition int (n : nat) : value := Num (inject_Z (Z.of_nat n)).

(** The value of key [k] in a dictionary literal. *)
Fixpoint assoc (k : str) (kv : list (str * value)) : option value :=
  match kv with
  | [] => None
  | (k', v) :: kv' => if decide (k' = k) then Some v else assoc k kv'
  end.

Definition field (k : str) (v : value) : option value :=
  match v with
  | Object kv => assoc k kv
  | _ => None
  end.

Definition keys (v : value) : list str :=
  match v with
  | Object kv => kv.*1
  | _ => []
  end.

(** [data[key]] *)
Definition getitem (data : value) (key : str) : Py.result value :=
  match data with
  | Object kv =>
      match assoc key kv with
      | Some v => Py.Ok v
      | None => Py.Raise Py.KeyError
      end
  | _ => Py.Raise Py.TypeError
  end.

(** What a file holds, as [json.load] on the file opened as UTF-8
    shows it: a text read as a value, a text that is not JSON, or bytes
    that are not UTF-8. *)
Inductive file :=
| Valid (v : value)
| Malformed
| Undecodable.

End Json.

(** The shared directories.  Of a marker file only its existence matters
    to the stages; [final_report] is [/shared/analysis/final_report.json]. *)
Record shared := Shared {
  raw : gmap str str;
  fetch_complete : bool;
  processed : gmap str Json.file;
  process_complete : option Json.value;
  final_report : option Json.value
}.

(** What a run of a stage comes to: it ends, it ends on an error, or it
    keeps polling for a marker that is not there. *)
Inductive run :=
| Finished
| Failed (e : Py.exn)
| Waiting.

(** ** The Processor: [processor/process.py] *)

Module Processor.

Definition nl : ascii := ascii_of_nat 10.

(** [r'<script[^>]*>.*?</script>'] with [re.DOTALL | re.IGNORECASE] *)
Definition script_re : Re.regex :=
  Re.lit_ci "<script"
  ++ [Re.Atom (Re.none_of ">") Re.Star; Re.Atom (Re.chr ">"%char) Re.One;
      Re.Atom Re.any Re.LazyStar]
  ++ Re.lit_ci "</script>".

(** [r'<style[^>]*>.*?</style>'] with [re.DOTALL | re.IGNORECASE] *)
Definition style_re : Re.regex :=
  Re.lit_ci "<style"
  ++ [Re.Atom (Re.none_of ">") Re.Star; Re.Atom (Re.chr ">"%char) Re.One;
      Re.Atom Re.any Re.LazyStar]
  ++ Re.lit_ci "</style>".

(** The two quote characters, and the characters that end an attribute
    value: a quote, a space or [>]. *)
Definition quotes : str := [ascii_of_nat 39; ascii_of_nat 34].
Definition stops : str := quotes ++ str_of " >".

(** The patterns of [re.findall] in [strip_html], with
    [re.IGNORECASE]: the attribute name with its [=], an optional
    quote, and as a group at least one character that is not a stop.
    The group is the last atom. *)
Definition attr_re (name : str) : Re.regex :=
  Re.lit_ci name
  ++ [Re.Atom (Re.one_of quotes) Re.Opt; Re.Atom (Re.none_of stops) Re.Plus].

Definition attr_group (name : str) : nat := length name + 1.

Definition href_re : Re.regex := attr_re "href=".
Definition src_re : Re.regex := attr_re "src=".

(** [r'<[^>]+>'] *)
Definition tag_re : Re.regex :=
  [Re.Atom (Re.chr "<"%char) Re.One; Re.Atom (Re.none_of ">") Re.Plus;
   Re.Atom (Re.chr ">"%char) Re.One].

(** [r'\s+'] *)
Definition spaces_re : Re.regex := [Re.Atom Str.is_space Re.Plus].

(** The first two lines of [strip_html]. *)
Definition remove_blocks (html_content : str) : str :=
  Re.sub style_re "" (Re.sub script_re "" html_content).

Definition find_links (markup : str) : list str :=
  Re.findall href_re (attr_group "href=") markup.

Definition find_images (markup : str) : list str :=
  Re.findall src_re (attr_group "src=") markup.

(** The last two lines of [strip_html]. *)
Definition plain_text (markup : str) : str :=
  Str.strip (Re.sub spaces_re " " (Re.sub tag_re " " markup)).

Definition strip_html (html_content : str) : str * list str * list str :=
  let html_content := remove_blocks html_content in
  let links := find_links html_content in
  let images := find_images html_content in
  let text := plain_text html_content in
  (text, links, images).

Record statistics := Statistics {
  word_count : nat;
  sentence_count : nat;
  paragraph_count : nat;
  avg_word_length : Q
}.

Definition get_statistics (text : str) : statistics :=
  let words := Str.split text in
  let word_count := length words in
  let sentence_count :=
    Str.count text "." + Str.count text "!" + Str.count text "?" in
  let paragraph_count :=
    length (filter (λ p, Str.truthy (Str.strip p) = true)
                   (Str.split_sep text [nl; nl])) in
  let total_word_length := sum_list_with length words in
  let avg_word_length :=
    if decide (word_count = 0) then 0%Q
    else (Z.of_nat total_word_length # Pos.of_nat word_count)%Q in
  Statistics word_count sentence_count paragraph_count avg_word_length.

End Processor.


Module ProcessorMain.
Import Processor.

Definition HTML_files : str := "/shared/raw".
Definition processed_data_dir : str := "/shared/processed".

Definition dump_statistics (st : statistics) : Json.value :=
  Json.Object
    [(str_of "word_count", Json.int (word_count st));
     (str_of "sentence_count", Json.int (sentence_count st));
     (str_of "paragraph_count", Json.int (paragraph_count st));
     (str_of "avg_word_length", Json.Num (avg_word_length st))].

(** The body of the loop of [main] up to the write: the record of one
    document.  [now] is the reading of the clock. *)
Definition result_of (now : str) (file content : str) : Json.value :=
  let '(text, links, images) := strip_html content in
  let stats := get_statistics text in
  Json.Object
    [(str_of "source_file", Json.String file);
     (str_of "text", Json.String text);
     (str_of "statistics", dump_statistics stats);
     (str_of "links", Json.Array (Json.String <$> links));
     (str_of "images", Json.Array (Json.String <$> images));
     (str_of "processed_at", Json.String now)].

Definition html_files (w : shared) : list str :=
  Py.sorted Str.leb
    (filter (λ f, Str.endswith f ".html" = true) (Py.listdir (raw w))).

(** The output name of a document. *)
Definition output_name (file : str) : str := Str.replace file ".html" ".json".

(** One turn of the loop; the loop variables are the processed
    directory and [processed_files].  The file read is one that
    [os.listdir] has just listed. *)
Definition step (now : str) (w : shared)
    (st : gmap str Json.file * list str) (file : str)
  : gmap str Json.file * list str :=
  let content := default [] (raw w !! file) in
  let output_file := Py.path_join processed_data_dir (output_name file) in
  (<[output_name file := Json.Valid (result_of now file content)]> st.1,
   st.2 ++ [output_file]).

Definition main (now : str) (w : shared) : run * shared :=
  if fetch_complete w then
    let '(dir, processed_files) :=
      foldl (step now w) (processed w, []) (html_files w) in
    (Finished,
     Shared (raw w) (fetch_complete w) dir
       (Some (Json.Object
          [(str_of "timestamp", Json.String now);
           (str_of "processed_files",
             Json.Array (Json.String <$> processed_files))]))
       (final_report w))
  else (Waiting, w).

End ProcessorMain.

(** ** The Analyzer: [analyzer/analyze.py] *)

(** [collections.Counter]: a dictionary from keys to counts, in insertion
    order. *)
Module Counter.

Definition t := list (str * nat).

(** [c[w] = c.get(w, 0) + 1] *)
Fixpoint incr (w : str) (c : t) : t :=
  match c with
  | [] => [(w, 1)]
  | (k, n) :: c' => if decide (k = w) then (k, S n) :: c' else (k, n) :: incr w c'
  end.

(** [c.update(ws)] *)
Definition update (c : t) (ws : list str) : t :=
  foldl (λ c w, incr w c) c ws.

(** [c[w]] *)
Fixpoint get (c : t) (w : str) : nat :=
  match c with
  | [] => 0
  | (k, n) :: c' => if decide (k = w) then n else get c' w
  end.

(** [c.values()] *)
Definition values (c : t) : list nat := c.*2.

(** [c.elements()] *)
Definition elements (c : t) : list str :=
  flat_map (λ e, replicate e.2 e.1) c.

(** [c.most_common(n)]: the [n] first items of the stable sort by
    decreasing count. *)
Definition most_common (n : nat) (c : t) : list (str * nat) :=
  take n (Py.sorted (λ x y : str * nat, y.2 <=? x.2) c).

End Counter.

Module Analyzer.

Definition jaccard_score (tokens_a tokens_b : list str) : Py.result Q :=
  let set_a : gset str := list_to_set tokens_a in
  let set_b : gset str := list_to_set tokens_b in
  if decide (set_a = ∅ ∧ set_b = ∅) then Py.Ok 0%Q
  else Py.truediv (size (set_a ∩ set_b)) (size (set_a ∪ set_b)).

(** [range(len(words) - n + 1)] is empty when the bound is negative. *)
Definition make_ngrams (words : list str) (n : nat) : list str :=
  map (λ i, Str.join " " (take n (drop i words)))
      (seq 0 (Z.to_nat (Z.of_nat (length words) - Z.of_nat n + 1))).

(** The variables of the loading loop. *)
Record loaded := Loaded {
  docs_tokens : gmap str (list str);
  total_counter : Counter.t;
  bigram_counter : Counter.t;
  texts_raw : list str
}.

Definition file_list (w : shared) : list str :=
  Py.sorted Str.leb
    (filter (λ f, Str.endswith f ".json" = true) (Py.listdir (processed w))).

(** [json.load] of a listed file. *)
Definition json_load (w : shared) (fname : str) : Py.result Json.value :=
  match processed w !! fname with
  | Some (Json.Valid v) => Py.Ok v
  | Some Json.Malformed => Py.Raise Py.JSONDecodeError
  | Some Json.Undecodable => Py.Raise Py.UnicodeDecodeError
  | None => Py.Raise Py.FileNotFoundError
  end.

(** [v.split()]: only a string has the method. *)
Definition as_text (v : Json.value) : Py.result str :=
  match v with
  | Json.String s => Py.Ok s
  | _ => Py.Raise Py.AttributeError
  end.

Definition load_one (w : shared) (st : loaded) (fname : str)
  : Py.result loaded :=
  data ← json_load w fname;
  field ← Json.getitem data "text";
  text ← as_text field;
  let tokens := Str.split text in
  Py.Ok (Loaded (<[fname := tokens]> (docs_tokens st))
                (Counter.update (total_counter st) tokens)
                (Counter.update (bigram_counter st) (make_ngrams tokens 2))
                (texts_raw st ++ [text])).

Definition tokens_of (st : loaded) (fname : str) : Py.result (list str) :=
  match docs_tokens st !! fname with
  | Some ts => Py.Ok ts
  | None => Py.Raise Py.KeyError
  end.

Definition sim_entry (files : list str) (st : loaded) (i j : nat)
  : Py.result Json.value :=
  doc1 ← Py.index files i;
  doc2 ← Py.index files j;
  a ← tokens_of st doc1;
  b ← tokens_of st doc2;
  similarity ← jaccard_score a b;
  Py.Ok (Json.Object [(str_of "doc1", Json.String doc1);
                      (str_of "doc2", Json.String doc2);
                      (str_of "similarity", Json.Num similarity)]).

Definition sim_results (files : list str) (st : loaded)
  : Py.result (list Json.value) :=
  rows ← Py.for_each
    (λ i, Py.for_each (sim_entry files st i) (Py.range (i + 1) (length files)))
    (Py.range 0 (length files));
  Py.Ok (concat rows).

Definition top_words (st : loaded) (total_words : nat)
  : Py.result (list Json.value) :=
  Py.for_each
    (λ e : str * nat,
       frequency ← Py.truediv e.2 total_words;
       Py.Ok (Json.Object [(str_of "word", Json.String e.1);
                           (str_of "count", Json.int e.2);
                           (str_of "frequency", Json.Num frequency)]))
    (Counter.most_common 100 (total_counter st)).

Definition est_sentence_count (st : loaded) : nat :=
  sum_list_with
    (λ txt, Str.count txt "." + Str.count txt "!" + Str.count txt "?")
    (texts_raw st).

Definition top_bigrams (st : loaded) : list Json.value :=
  map (λ e : str * nat,
         Json.Object [(str_of "bigram", Json.String e.1);
                      (str_of "count", Json.int e.2)])
      (Counter.most_common 50 (bigram_counter st)).

(** [main] from the end of the loading loop to the report. *)
Definition build_report (now : str) (files : list str) (st : loaded)
  : Py.result Json.value :=
  sims ← sim_results files st;
  let total_words := sum_list (Counter.values (total_counter st)) in
  let vocab_size := length (total_counter st) in
  tops ← top_words st total_words;
  avg_sentence_len ← Py.truediv total_words (max (est_sentence_count st) 1);
  avg_word_len ←
    (if decide (total_words = 0) then Py.Ok 0%Q
     else Py.truediv (sum_list_with length (Counter.elements (total_counter st)))
                     total_words);
  let complexity := (avg_sentence_len * avg_word_len)%Q in
  Py.Ok (Json.Object
    [(str_of "processing_timestamp", Json.String now);
     (str_of "documents_processed", Json.int (length files));
     (str_of "total_words", Json.int total_words);
     (str_of "unique_words", Json.int vocab_size);
     (str_of "top_100_words", Json.Array tops);
     (str_of "document_similarity", Json.Array sims);
     (str_of "top_bigrams", Json.Array (top_bigrams st));
     (str_of "readability", Json.Object
        [(str_of "avg_sentence_length", Json.Num avg_sentence_len);
         (str_of "avg_word_length", Json.Num avg_word_len);
         (str_of "complexity_score", Json.Num complexity)])]).

Definition compute (now : str) (w : shared) : Py.result Json.value :=
  let file_list := file_list w in
  st ← Py.for_loop (load_one w) file_list (Loaded ∅ [] [] []);
  build_report now file_list st.

(** The report file is opened for writing once the report is built. *)
Definition main (now : str) (w : shared) : run * shared :=
  match process_complete w with
  | None => (Waiting, w)
  | Some _ =>
      match compute now w with
      | Py.Ok report =>
          (Finished,
           Shared (raw w) (fetch_complete w) (processed w)
                  (process_complete w) (Some report))
      | Py.Raise e => (Failed e, w)
      end
  end.

End Analyzer.


(** * Properties *)

(** ** Division *)

Lemma truediv_ok (a b : nat) :
  b ≠ 0 → Py.truediv a b = Py.Ok (Z.of_nat a # Pos.of_nat b)%Q.
Proof. intros Hb. unfold Py.truediv. by destruct (decide (b = 0)). Qed.

Lemma Zpos_of_nat (b : nat) : b ≠ 0 → Z.pos (Pos.of_nat b) = Z.of_nat b.
Proof. intros Hb. by rewrite <- positive_nat_Z, Nat2Pos.id. Qed.

Lemma quotient_Qdiv (a b : nat) :
  b ≠ 0 →
  (Z.of_nat a # Pos.of_nat b == inject_Z (Z.of_nat a) / inject_Z (Z.of_nat b))%Q.
Proof.
  intros Hb. rewrite Qmake_Qdiv.
  by rewrite Zpos_of_nat.
Qed.

Lemma quotient_bounds (a b : nat) :
  a ≤ b → (0 <= Z.of_nat a # Pos.of_nat b <= 1)%Q.
Proof.
  intros Hab. unfold Qle; simpl. split; [lia|].
  destruct (decide (b = 0)) as [->|Hb]; [replace a with 0 by lia; simpl; lia|].
  rewrite Zpos_of_nat by done. lia.
Qed.

Lemma quotient_self (a : nat) : a ≠ 0 → (Z.of_nat a # Pos.of_nat a == 1)%Q.
Proof.
  intros Ha. unfold Qeq; simpl. rewrite Zpos_of_nat by done. lia.
Qed.

(** ** Jaccard similarity *)

Section jaccard.
Import Analyzer.

Definition token_set (tokens : list str) : gset str := list_to_set tokens.

Lemma token_set_empty (tokens : list str) :
  token_set tokens = ∅ ↔ tokens = [].
Proof.
  unfold token_set. split; [|by intros ->].
  destruct tokens as [|x l]; [done|]. simpl. set_solver.
Qed.

Lemma jaccard_score_nonempty (A B : list str) :
  ¬ (A = [] ∧ B = []) →
  jaccard_score A B
  = Py.Ok (Z.of_nat (size (token_set A ∩ token_set B))
           # Pos.of_nat (size (token_set A ∪ token_set B)))%Q
  ∧ size (token_set A ∪ token_set B) ≠ 0.
Proof.
  intros Hne. unfold jaccard_score. fold (token_set A) (token_set B).
  assert (Hu : size (token_set A ∪ token_set B) ≠ 0).
  { intros Hz. apply size_empty_inv in Hz. apply Hne.
    rewrite <- !token_set_empty. split; apply leibniz_equiv; set_solver. }
  destruct (decide _) as [[Ha Hb]|_].
  - exfalso. apply Hne. by rewrite <- !token_set_empty.
  - by rewrite truediv_ok.
Qed.

(** C4. [jaccard_score] returns the Jaccard similarity of the two token
    sets, the size of the intersection over the size of the union, and 0
    when both are empty; the result lies between 0 and 1; it depends on
    the sets only, so that repeated tokens do not count; it is symmetric;
    it is 1 on a non-empty document paired with itself. *)
Theorem jaccard_score_spec :
  (∀ A B : list str, ∃ q,
      jaccard_score A B = Py.Ok q ∧ (0 <= q <= 1)%Q ∧
      (q == if decide (token_set A = ∅ ∧ token_set B = ∅) then 0
            else inject_Z (Z.of_nat (size (token_set A ∩ token_set B)))
                 / inject_Z (Z.of_nat (size (token_set A ∪ token_set B))))%Q)
  ∧ (∀ A B A' B' : list str,
      token_set A = token_set A' → token_set B = token_set B' →
      jaccard_score A B = jaccard_score A' B')
  ∧ (∀ A B : list str, jaccard_score A B = jaccard_score B A)
  ∧ (∀ A : list str, A ≠ [] → ∃ q, jaccard_score A A = Py.Ok q ∧ (q == 1)%Q)
  ∧ jaccard_score [] [] = Py.Ok 0%Q.
Proof.
  split; [|split; [|split; [|split]]].
  - intros A B. destruct (decide (A = [] ∧ B = [])) as [[-> ->]|Hne].
    + exists 0%Q. split; [done|]. split; [done|].
      destruct (decide _) as [|Hn]; [reflexivity|]. by destruct Hn.
    + destruct (jaccard_score_nonempty A B Hne) as [-> Hu].
      eexists; split; [done|]. split.
      * apply quotient_bounds, subseteq_size. set_solver.
      * destruct (decide _) as [[Ha Hb]|_].
        -- exfalso. apply Hne. by rewrite <- !token_set_empty.
        -- by apply quotient_Qdiv.
  - intros A B A' B' Ha Hb. unfold jaccard_score.
    fold (token_set A) (token_set B) (token_set A') (token_set B').
    by rewrite Ha, Hb.
  - intros A B. unfold jaccard_score.
    fold (token_set A) (token_set B).
    rewrite (comm_L (∩) (token_set A)), (comm_L (∪) (token_set A)).
    destruct (decide _) as [[]|H1], (decide _) as [[]|H2]; try done.
    + exfalso; by apply H2.
    + exfalso; by apply H1.
  - intros A HA. destruct (jaccard_score_nonempty A A) as [-> Hu]; [naive_solver|].
    eexists; split; [done|].
    replace (token_set A ∩ token_set A) with (token_set A ∪ token_set A) by set_solver.
    by apply quotient_self.
  - done.
Qed.

Lemma jaccard_score_spec_witness :
  ∃ q, jaccard_score [str_of "cat"; str_of "dog"; str_of "cat"]
                     [str_of "cat"; str_of "dog"; str_of "cat"] = Py.Ok q
       ∧ (q == 1)%Q.
Proof.
  apply (proj1 (proj2 (proj2 (proj2 jaccard_score_spec)))). discriminate.
Defined.

(** The example of the specification: [cat dog] against [dog bird]. *)
Example jaccard_cat_dog_bird :
  jaccard_score (Str.split "cat dog") (Str.split "dog bird") = Py.Ok (1 # 3)%Q.
Proof. by vm_compute. Qed.
End jaccard.

(** ** Sorting *)

Section sorted.
Context {A : Type} (leb : A → A → bool).
Hypothesis leb_total : ∀ x y, leb x y = true ∨ leb y x = true.

Definition ordered (x y : A) : Prop := leb x y = true.

Lemma insert_Permutation (x : A) (l : list A) : Py.insert leb x l ≡ₚ x :: l.
Proof.
  induction l as [|y l IH]; simpl; [done|].
  destruct (leb x y); [done|]. by rewrite IH, Permutation_swap.
Qed.

Lemma sorted_Permutation (l : list A) : Py.sorted leb l ≡ₚ l.
Proof.
  induction l as [|x l IH]; simpl; [done|].
  by rewrite insert_Permutation, IH.
Qed.

Lemma insert_HdRel (a x : A) (l : list A) :
  ordered a x → HdRel ordered a l → HdRel ordered a (Py.insert leb x l).
Proof.
  intros Hax Hl. destruct l as [|y l]; simpl; [by constructor|].
  destruct (leb x y); constructor; [done|]. by inversion Hl.
Qed.

Lemma insert_Sorted (x : A) (l : list A) :
  Sorted ordered l → Sorted ordered (Py.insert leb x l).
Proof.
  induction 1 as [|y l Hl IH Hy]; simpl; [by repeat constructor|].
  destruct (leb x y) eqn:Hxy.
  - constructor; [by constructor|]. by constructor.
  - constructor; [done|]. apply insert_HdRel; [|done].
    destruct (leb_total x y); [congruence|done].
Qed.

Lemma sorted_Sorted (l : list A) : Sorted ordered (Py.sorted leb l).
Proof.
  induction l as [|x l IH]; simpl; [constructor|]. by apply insert_Sorted.
Qed.

Lemma Sorted_weaken (R : relation A) (l : list A) :
  (∀ x y, ordered x y → R x y) → Sorted ordered l → Sorted R l.
Proof.
  intros HR. induction 1 as [|x l Hl IH Hx]; constructor; [done|].
  destruct Hx; constructor; auto.
Qed.

Lemma sorted_length (l : list A) : length (Py.sorted leb l) = length l.
Proof. apply Permutation_length, sorted_Permutation. Qed.
End sorted.

(** ** Counters *)

Section counter.
Import Counter.

(** Occurrences of [w] in a list of tokens. *)
Definition occurrences (w : str) (ws : list str) : nat :=
  length (filter (λ x : str, x = w) ws).

Lemma get_incr (c : t) (w x : str) :
  get (incr w c) x = if decide (w = x) then S (get c x) else get c x.
Proof.
  induction c as [|[k n] c IH]; csimpl.
  - by destruct (decide (w = x)).
  - destruct (decide (k = w)) as [->|Hkw]; csimpl.
    + by destruct (decide (w = x)).
    + rewrite IH. destruct (decide (k = x)) as [->|]; [|done].
      by destruct (decide (w = x)).
Qed.

Lemma get_update (c : t) (ws : list str) (x : str) :
  get (update c ws) x = get c x + occurrences x ws.
Proof.
  unfold update, occurrences. revert c.
  induction ws as [|w ws IH]; intros c; csimpl; [lia|].
  rewrite IH, get_incr, filter_cons.
  destruct (decide (w = x)); csimpl; lia.
Qed.

Lemma keys_incr (c : t) (w : str) :
  (incr w c).*1 = if decide (w ∈ c.*1) then c.*1 else c.*1 ++ [w].
Proof.
  induction c as [|[k n] c IH]; csimpl.
  - done.
  - destruct (decide (k = w)) as [->|Hkw]; csimpl.
    + rewrite decide_True; [done|by left].
    + rewrite IH. destruct (decide (w ∈ c.*1)) as [Hin|Hin].
      * rewrite decide_True; [done|by right].
      * rewrite decide_False; [done|].
        intros [->|?]%elem_of_cons; done.
Qed.

Lemma NoDup_incr (c : t) (w : str) : NoDup c.*1 → NoDup (incr w c).*1.
Proof.
  intros Hc. rewrite keys_incr. destruct (decide _); [done|].
  apply NoDup_app. split_and!; [done| |apply NoDup_singleton].
  intros x Hx ->%list_elem_of_singleton. done.
Qed.

Lemma elem_of_keys_incr (c : t) (w x : str) :
  x ∈ (incr w c).*1 ↔ x = w ∨ x ∈ c.*1.
Proof.
  rewrite keys_incr. destruct (decide _).
  - naive_solver.
  - rewrite elem_of_app, list_elem_of_singleton. naive_solver.
Qed.

Lemma NoDup_update (c : t) (ws : list str) :
  NoDup c.*1 → NoDup (update c ws).*1.
Proof.
  unfold update. revert c. induction ws as [|w ws IH]; intros c Hc; csimpl; [done|].
  by apply IH, NoDup_incr.
Qed.

Lemma elem_of_keys_update (c : t) (ws : list str) (x : str) :
  x ∈ (update c ws).*1 ↔ x ∈ c.*1 ∨ x ∈ ws.
Proof.
  unfold update. revert c. induction ws as [|w ws IH]; intros c; csimpl.
  - rewrite elem_of_nil. naive_solver.
  - rewrite IH, elem_of_keys_incr, elem_of_cons. naive_solver.
Qed.

Lemma get_elem_of (c : t) (w : str) (n : nat) :
  NoDup c.*1 → (w, n) ∈ c → get c w = n.
Proof.
  induction c as [|[k m] c IH]; csimpl; intros Hnd Hin.
  - by apply elem_of_nil in Hin.
  - apply NoDup_cons in Hnd as [Hk Hnd].
    apply elem_of_cons in Hin as [[= -> ->]|Hin].
    + by destruct (decide (k = k)).
    + destruct (decide (k = w)) as [->|]; [|by apply IH].
      exfalso. apply Hk. apply list_elem_of_fmap. by exists (w, n).
Qed.

Lemma sum_values_incr (c : t) (w : str) :
  sum_list (values (incr w c)) = S (sum_list (values c)).
Proof.
  unfold values. induction c as [|[k n] c IH]; csimpl; [done|].
  destruct (decide (k = w)); csimpl; [done|]. rewrite IH. lia.
Qed.

Lemma sum_values_update (c : t) (ws : list str) :
  sum_list (values (update c ws)) = sum_list (values c) + length ws.
Proof.
  unfold update. revert c. induction ws as [|w ws IH]; intros c; csimpl; [lia|].
  rewrite IH, sum_values_incr. lia.
Qed.

Lemma elements_length_incr (c : t) (w : str) :
  sum_list_with length (elements (incr w c))
  = length w + sum_list_with length (elements c).
Proof.
  unfold elements. induction c as [|[k n] c IH]; csimpl; [lia|].
  destruct (decide (k = w)) as [->|]; csimpl.
  - rewrite !sum_list_with_app. lia.
  - rewrite !sum_list_with_app, IH. lia.
Qed.

Lemma elements_length_update (c : t) (ws : list str) :
  sum_list_with length (elements (update c ws))
  = sum_list_with length (elements c) + sum_list_with length ws.
Proof.
  unfold update. revert c. induction ws as [|w ws IH]; intros c; csimpl; [lia|].
  rewrite IH, elements_length_incr. lia.
Qed.

Lemma length_update_nil (ws : list str) : update [] ws = [] → ws = [].
Proof.
  intros H. pose proof (sum_values_update [] ws) as Hs. rewrite H in Hs.
  csimpl in Hs. destruct ws; [done|csimpl in Hs; lia].
Qed.

(** The order of [most_common]. *)
Definition by_count (x y : str * nat) : bool := y.2 <=? x.2.

Lemma by_count_total (x y : str * nat) :
  by_count x y = true ∨ by_count y x = true.
Proof. unfold by_count. rewrite !Nat.leb_le. lia. Qed.

Lemma most_common_spec (n : nat) (c : t) :
  ∃ rest,
    Py.sorted by_count c = most_common n c ++ rest
    ∧ most_common n c ++ rest ≡ₚ c
    ∧ length (most_common n c) = min n (length c)
    ∧ StronglySorted (λ x y, y.2 ≤ x.2) (most_common n c ++ rest).
Proof.
  exists (drop n (Py.sorted by_count c)). unfold most_common.
  change (λ x y : str * nat, y.2 <=? x.2) with by_count.
  rewrite take_drop. split_and!; [done|apply sorted_Permutation| |].
  - by rewrite length_take, sorted_length.
  - apply Sorted_StronglySorted; [intros x y z; lia|].
    eapply Sorted_weaken; [|apply sorted_Sorted, by_count_total].
    intros x y. unfold ordered, by_count. by rewrite Nat.leb_le.
Qed.
End counter.

(** ** Bigrams *)

Section ngrams.
Import Analyzer.

Lemma make_ngrams_length (words : list str) :
  length (make_ngrams words 2) = length words - 1.
Proof. unfold make_ngrams. rewrite length_map, length_seq. lia. Qed.

Lemma make_ngrams_lookup (words : list str) (i : nat) (a b : str) :
  words !! i = Some a → words !! (i + 1) = Some b →
  make_ngrams words 2 !! i = Some (a ++ str_of " " ++ b).
Proof.
  intros Ha Hb. unfold make_ngrams.
  pose proof (lookup_lt_Some _ _ _ Hb) as Hlt.
  rewrite list_lookup_fmap, lookup_seq_lt by lia. simpl. f_equal.
  rewrite <- (take_drop_middle words i a Ha) at 1.
  rewrite drop_app_length'; [|rewrite length_take; lia].
  replace (i + 1) with (S i) in Hb by lia.
  rewrite <- (take_drop_middle words i a Ha) in Hb.
  rewrite lookup_app_r in Hb; [|rewrite length_take; lia].
  rewrite length_take, Nat.min_l in Hb by lia.
  replace (S i - i) with 1 in Hb by lia. simpl in Hb.
  destruct (drop (S i) words) as [|b' rest]; [done|].
  simpl in Hb. injection Hb as ->. done.
Qed.

Lemma make_ngrams_inv (words : list str) (i : nat) (bg : str) :
  make_ngrams words 2 !! i = Some bg →
  ∃ a b, words !! i = Some a ∧ words !! (i + 1) = Some b
         ∧ bg = a ++ str_of " " ++ b.
Proof.
  intros Hbg. pose proof (lookup_lt_Some _ _ _ Hbg) as Hlt.
  rewrite make_ngrams_length in Hlt.
  destruct (lookup_lt_is_Some_2 words i) as [a Ha]; [lia|].
  destruct (lookup_lt_is_Some_2 words (i + 1)) as [b Hb]; [lia|].
  exists a, b. split_and!; [done..|].
  rewrite (make_ngrams_lookup _ _ _ _ Ha Hb) in Hbg. by injection Hbg.
Qed.
End ngrams.

(** ** The order of file names *)

Section str_order.
Lemma code_inj (x y : ascii) : Str.code x = Str.code y → x = y.
Proof.
  unfold Str.code. intros H.
  by rewrite <- (ascii_N_embedding x), <- (ascii_N_embedding y), H.
Qed.

Lemma leb_total (a b : str) : Str.leb a b = true ∨ Str.leb b a = true.
Proof.
  revert b. induction a as [|x a IH]; intros [|y b]; simpl; auto.
  destruct (N.ltb_spec (Str.code x) (Str.code y)); [auto|].
  destruct (N.ltb_spec (Str.code y) (Str.code x)); auto.
Qed.

Lemma leb_antisym (a b : str) :
  Str.leb a b = true → Str.leb b a = true → a = b.
Proof.
  revert b. induction a as [|x a IH]; intros [|y b]; simpl; try done.
  destruct (N.ltb_spec (Str.code x) (Str.code y)) as [Hxy|Hxy];
    destruct (N.ltb_spec (Str.code y) (Str.code x)) as [Hyx|Hyx];
    try done; try lia.
  intros Hab Hba. f_equal; [apply code_inj; lia|by apply IH].
Qed.

Lemma leb_trans (a b c : str) :
  Str.leb a b = true → Str.leb b c = true → Str.leb a c = true.
Proof.
  revert b c. induction a as [|x a IH]; intros [|y b] [|z c]; simpl; try done.
  destruct (N.ltb_spec (Str.code x) (Str.code y)) as [Hxy|Hxy];
    destruct (N.ltb_spec (Str.code y) (Str.code z)) as [Hyz|Hyz];
    destruct (N.ltb_spec (Str.code x) (Str.code z)) as [Hxz|Hxz];
    try done; try lia.
  - destruct (N.ltb_spec (Str.code z) (Str.code y)); [done|lia].
  - destruct (N.ltb_spec (Str.code y) (Str.code x)); [done|lia].
  - destruct (N.ltb_spec (Str.code y) (Str.code x)) as [|Hyx]; [done|].
    destruct (N.ltb_spec (Str.code z) (Str.code y)) as [|Hzy]; [done|].
    destruct (N.ltb_spec (Str.code z) (Str.code x)) as [|Hzx]; [lia|].
    apply IH.
Qed.

#[local] Instance le_trans : Transitive Str.le.
Proof. intros a b c. apply leb_trans. Qed.

Lemma lt_irrefl (a : str) : ¬ Str.lt a a.
Proof. by intros [_ ?]. Qed.

Lemma lt_asym (a b : str) : Str.lt a b → ¬ Str.lt b a.
Proof. intros [Hab Hne] [Hba _]. apply Hne. by apply leb_antisym. Qed.

Lemma lt_trans (a b c : str) : Str.lt a b → Str.lt b c → Str.lt a c.
Proof.
  intros [Hab Hne] [Hbc Hne']. split; [by etrans|].
  intros ->. apply Hne. by apply leb_antisym.
Qed.

(** A directory listing, filtered and sorted. *)
Definition listing {A} (suffix : str) (d : gmap str A) : list str :=
  Py.sorted Str.leb
    (filter (λ f, Str.endswith f suffix = true) (Py.listdir d)).

Lemma elem_of_listing {A} (suffix : str) (d : gmap str A) (f : str) :
  f ∈ listing suffix d ↔ is_Some (d !! f) ∧ Str.endswith f suffix = true.
Proof.
  unfold listing. rewrite sorted_Permutation, list_elem_of_filter.
  unfold Py.listdir. rewrite list_elem_of_fmap. split.
  - intros [Hs ([k v] & -> & Hin%elem_of_map_to_list)]. eauto.
  - intros [[v Hv] Hs]. split; [done|]. exists (f, v). split; [done|].
    by apply elem_of_map_to_list.
Qed.

Lemma NoDup_listing {A} (suffix : str) (d : gmap str A) :
  NoDup (listing suffix d).
Proof.
  unfold listing. rewrite sorted_Permutation.
  apply NoDup_filter, NoDup_fst_map_to_list.
Qed.

Lemma Sorted_listing {A} (suffix : str) (d : gmap str A) :
  StronglySorted Str.le (listing suffix d).
Proof.
  apply Sorted_StronglySorted; [apply _|].
  apply (sorted_Sorted Str.leb leb_total).
Qed.

Lemma strictly_sorted (l : list str) :
  NoDup l → StronglySorted Str.le l → StronglySorted Str.lt l.
Proof.
  induction 2 as [|x l Hl IH Hx]; [constructor|].
  apply NoDup_cons in H as [Hx' Hnd]. constructor; [by apply IH|].
  rewrite Forall_forall in Hx |- *. intros y Hy. split; [by apply Hx|].
  by intros ->.
Qed.

Lemma listing_strictly_sorted {A} (suffix : str) (d : gmap str A) :
  StronglySorted Str.lt (listing suffix d).
Proof. apply strictly_sorted; [apply NoDup_listing|apply Sorted_listing]. Qed.
End str_order.

(** ** Loops that may raise *)

Section loops.
Context {A B : Type}.

Lemma for_each_ok (f : A → Py.result B) (g : A → B) (l : list A) :
  (∀ x, x ∈ l → f x = Py.Ok (g x)) → Py.for_each f l = Py.Ok (g <$> l).
Proof.
  induction l as [|x l IH]; intros Hf; simpl; [done|].
  rewrite Hf by left. simpl. rewrite IH; [done|].
  intros y Hy. apply Hf. by right.
Qed.

(** The rows a loop over the indices of [l] builds, when the row of
    an element is a function of it and of the elements after it. *)
Fixpoint rows (g : A → list A → B) (l : list A) : list B :=
  match l with
  | [] => []
  | x :: l' => g x l' :: rows g l'
  end.

Lemma for_each_seq (F : nat → Py.result B) (g : A → list A → B)
    (l : list A) (a : nat) :
  (∀ k x, l !! k = Some x → F (a + k) = Py.Ok (g x (drop (S k) l))) →
  Py.for_each F (seq a (length l)) = Py.Ok (rows g l).
Proof.
  revert a. induction l as [|x l IH]; intros a HF; simpl; [done|].
  rewrite <- (Nat.add_0_r a) at 1. rewrite (HF 0 x) by done. simpl.
  rewrite drop_0, (IH (S a)); [done|].
  intros k y Hk. replace (S a + k) with (a + S k) by lia.
  by rewrite (HF (S k) y).
Qed.
End loops.

(** Each element paired with each later one. *)
Fixpoint pairs_of {A} (l : list A) : list (A * A) :=
  match l with
  | [] => []
  | x :: l' => ((λ y, (x, y)) <$> l') ++ pairs_of l'
  end.

Section pairs.
Context {A : Type}.

Lemma pairs_of_rows (l : list A) :
  concat (rows (λ x l', (λ y, (x, y)) <$> l') l) = pairs_of l.
Proof. induction l as [|x l IH]; simpl; [done|]. by rewrite IH. Qed.

Lemma triangle_succ (n : nat) : S n * (S n - 1) / 2 = n + n * (n - 1) / 2.
Proof.
  replace (S n * (S n - 1)) with (n * (n - 1) + n * 2) by nia.
  rewrite Nat.div_add by lia. lia.
Qed.

Lemma pairs_of_length (l : list A) :
  length (pairs_of l) = length l * (length l - 1) / 2.
Proof.
  induction l as [|x l IH]; [done|].
  cbn [pairs_of length]. rewrite triangle_succ, length_app, length_fmap, IH. done.
Qed.

Lemma elem_of_pairs_of (l : list A) (a b : A) :
  (a, b) ∈ pairs_of l ↔
  ∃ i j, i < j ∧ l !! i = Some a ∧ l !! j = Some b.
Proof.
  induction l as [|x l IH]; simpl.
  - rewrite elem_of_nil. split; [done|]. by intros (i & j & _ & Hi & _).
  - rewrite elem_of_app, list_elem_of_fmap, IH. split.
    + intros [(y & [= -> ->] & Hy)|(i & j & Hij & Hi & Hj)].
      * apply list_elem_of_lookup in Hy as [j Hj].
        exists 0, (S j). split_and!; [lia|done..].
      * exists (S i), (S j). split_and!; [lia|done..].
    + intros (i & j & Hij & Hi & Hj). destruct j as [|j]; [lia|].
      destruct i as [|i].
      * left. injection Hi as ->. exists b. split; [done|].
        apply list_elem_of_lookup. by exists j.
      * right. exists i, j. split_and!; [lia|done..].
Qed.

(** Pairs in the order of the two loops: by first index, then by
    second. *)
Definition pair_before (R : relation A) (p q : A * A) : Prop :=
  R p.1 q.1 ∨ (p.1 = q.1 ∧ R p.2 q.2).

Lemma pairs_of_sorted (R : relation A) (l : list A) :
  StronglySorted R l → StronglySorted (pair_before R) (pairs_of l).
Proof.
  induction 1 as [|x l Hl IH Hx]; simpl; [constructor|].
  apply StronglySorted_app_2; [| |done].
  - intros p q [y [-> Hy]]%list_elem_of_fmap Hq. destruct q as [a b].
    apply elem_of_pairs_of in Hq as (i & j & _ & Hi & _).
    left. simpl. rewrite Forall_forall in Hx. apply Hx.
    apply list_elem_of_lookup. by exists i.
  - clear IH Hx. induction Hl as [|y l Hl IH Hy]; csimpl; constructor; [done|].
    rewrite Forall_fmap. eapply Forall_impl; [exact Hy|].
    intros z Hz. right. by split.
Qed.
End pairs.

(** ** The corpus the Analyzer reads *)

Section corpus.
Import Analyzer.

(** The text a processed file stores, when it stores one. *)
Definition stored_text (f : Json.file) : option str :=
  match f with
  | Json.Valid v =>
      match Json.field "text" v with
      | Some (Json.String s) => Some s
      | _ => None
      end
  | Json.Malformed | Json.Undecodable => None
  end.

Definition text_of (w : shared) (fname : str) : option str :=
  processed w !! fname ≫= stored_text.

(** The texts and the token sequences of the documents, in the order of
    the file names. *)
Definition texts (w : shared) : list str := omap (text_of w) (file_list w).

Definition documents (w : shared) : list (list str) := Str.split <$> texts w.

Definition bigrams_of (tokens : list str) : list str := make_ngrams tokens 2.

(** The value [jaccard_score] returns. *)
Definition similarity (A B : list str) : Q :=
  if decide (A = [] ∧ B = []) then 0%Q
  else (Z.of_nat (size (token_set A ∩ token_set B))
        # Pos.of_nat (size (token_set A ∪ token_set B)))%Q.

Lemma jaccard_score_eq (A B : list str) :
  jaccard_score A B = Py.Ok (similarity A B).
Proof.
  unfold similarity. destruct (decide (A = [] ∧ B = [])) as [[-> ->]|Hne].
  - done.
  - by destruct (jaccard_score_nonempty A B Hne) as [-> _].
Qed.

Lemma load_one_text (w : shared) (st : loaded) (f t : str) :
  text_of w f = Some t →
  load_one w st f
  = Py.Ok (Loaded (<[f := Str.split t]> (docs_tokens st))
             (Counter.update (total_counter st) (Str.split t))
             (Counter.update (bigram_counter st) (bigrams_of (Str.split t)))
             (texts_raw st ++ [t])).
Proof.
  unfold text_of, load_one, json_load.
  destruct (processed w !! f) as [[v| |]|]; cbn; try done.
  destruct v as [| | | |l|kv]; cbn; try done.
  destruct (Json.assoc _ kv) as [[| | |s| |]|]; cbn; try done.
  by intros [= ->].
Qed.

Lemma load_one_invalid (w : shared) (st : loaded) (f : str) :
  text_of w f = None → ∃ e, load_one w st f = Py.Raise e.
Proof.
  unfold text_of, load_one, json_load.
  destruct (processed w !! f) as [[v| |]|]; cbn; eauto.
  destruct v as [| | | |l|kv]; cbn; eauto.
  destruct (Json.assoc _ kv) as [[| | |s| |]|]; cbn; eauto. done.
Qed.

Definition remember (m : gmap str (list str)) (p : str * str)
  : gmap str (list str) := <[p.1 := Str.split p.2]> m.

(** The loop variables after the documents [files], with texts [ts],
    have been loaded. *)
Definition loaded_from (files ts : list str) (st : loaded) : loaded :=
  Loaded
    (foldl remember (docs_tokens st) (zip files ts))
    (Counter.update (total_counter st) (concat (Str.split <$> ts)))
    (Counter.update (bigram_counter st)
       (concat (bigrams_of <$> (Str.split <$> ts))))
    (texts_raw st ++ ts).

Lemma update_app (c : Counter.t) (l1 l2 : list str) :
  Counter.update c (l1 ++ l2) = Counter.update (Counter.update c l1) l2.
Proof. unfold Counter.update. by rewrite foldl_app. Qed.

Lemma load_loop_ok (w : shared) (files ts : list str) (st : loaded) :
  Forall2 (λ f t, text_of w f = Some t) files ts →
  Py.for_loop (load_one w) files st = Py.Ok (loaded_from files ts st).
Proof.
  intros H. revert st. induction H as [|f t files ts Hf _ IH]; intros st.
  - unfold loaded_from. simpl. rewrite app_nil_r. by destruct st.
  - simpl. rewrite (load_one_text _ _ _ _ Hf). simpl. rewrite IH.
    unfold loaded_from. simpl. by rewrite !update_app, <- app_assoc.
Qed.

Lemma load_loop_invalid (w : shared) (files : list str) (st : loaded) :
  (∃ f, f ∈ files ∧ text_of w f = None) →
  ∃ e, Py.for_loop (load_one w) files st = Py.Raise e.
Proof.
  revert st. induction files as [|f files IH]; intros st (g & Hin & Hg).
  - by apply elem_of_nil in Hin.
  - simpl. destruct (text_of w f) as [t|] eqn:Hf.
    + rewrite (load_one_text _ _ _ _ Hf). simpl. apply IH.
      apply elem_of_cons in Hin as [->|Hin]; [congruence|eauto].
    + destruct (load_one_invalid w st f Hf) as [e ->]. simpl. eauto.
Qed.

Lemma texts_all (w : shared) (files ts : list str) :
  Forall2 (λ f t, text_of w f = Some t) files ts →
  omap (text_of w) files = ts.
Proof.
  induction 1 as [|f t files ts Hf _ IH]; [done|].
  cbn [omap list_omap]. fold (omap (text_of w) files). by rewrite Hf, IH.
Qed.

Lemma texts_or_invalid (w : shared) (files : list str) :
  (∃ ts, Forall2 (λ f t, text_of w f = Some t) files ts)
  ∨ (∃ f, f ∈ files ∧ text_of w f = None).
Proof.
  induction files as [|f files [[ts IH]|(g & Hin & Hg)]].
  - left. by exists [].
  - destruct (text_of w f) as [t|] eqn:Hf.
    + left. exists (t :: ts). by constructor.
    + right. exists f. split; [by left|done].
  - right. exists g. split; [by right|done].
Qed.

Lemma remember_keeps (files ts : list str) (m : gmap str (list str))
    (f : str) (d : list str) :
  f ∉ files → m !! f = Some d →
  foldl remember m (zip files ts) !! f = Some d.
Proof.
  revert ts m. induction files as [|g files IH]; intros [|u ts] m Hf Hm; try done.
  simpl. apply IH; [set_solver|]. unfold remember. simpl.
  rewrite lookup_insert_ne; [done|set_solver].
Qed.

Lemma loaded_tokens (files ts : list str) (m : gmap str (list str))
    (k : nat) (f t : str) :
  NoDup files → length files = length ts →
  files !! k = Some f → ts !! k = Some t →
  foldl remember m (zip files ts) !! f = Some (Str.split t).
Proof.
  intros Hnd Hlen. revert ts Hlen m k.
  induction Hnd as [|g files Hg Hnd IH]; intros [|u ts] Hlen m k Hf Ht; try done.
  simpl in Hlen. destruct k as [|k]; simpl in *.
  - injection Hf as ->. injection Ht as ->.
    apply remember_keeps; [done|]. unfold remember. simpl.
    by rewrite lookup_insert_eq.
  - eapply IH; [lia|done..].
Qed.
End corpus.

(** ** The report the Analyzer builds *)

Section report.
Import Analyzer.

(** A document: its file name and its token sequence. *)
Definition doc : Type := str * list str.

Definition sim_value (p : doc * doc) : Json.value :=
  Json.Object [(str_of "doc1", Json.String p.1.1);
               (str_of "doc2", Json.String p.2.1);
               (str_of "similarity", Json.Num (similarity p.1.2 p.2.2))].

Definition word_value (total_words : nat) (e : str * nat) : Json.value :=
  Json.Object [(str_of "word", Json.String e.1);
               (str_of "count", Json.int e.2);
               (str_of "frequency",
                 Json.Num (Z.of_nat e.2 # Pos.of_nat total_words)%Q)].

Definition bigram_value (e : str * nat) : Json.value :=
  Json.Object [(str_of "bigram", Json.String e.1);
               (str_of "count", Json.int e.2)].

Lemma rows_fmap {A B} (g : A → B) (l : list A) :
  rows (λ x _, g x) l = g <$> l.
Proof. induction l as [|x l IH]; csimpl; [done|]. by rewrite IH. Qed.

Lemma concat_rows_pairs {A B} (g : A * A → B) (l : list A) :
  concat (rows (λ x l', g <$> ((λ y, (x, y)) <$> l')) l) = g <$> pairs_of l.
Proof.
  induction l as [|x l IH]; csimpl; [done|]. by rewrite IH, fmap_app.
Qed.

Lemma sim_entry_ok (files : list str) (st : loaded) (i j : nat) (x y : doc) :
  files !! i = Some x.1 → files !! j = Some y.1 →
  docs_tokens st !! x.1 = Some x.2 → docs_tokens st !! y.1 = Some y.2 →
  sim_entry files st i j = Py.Ok (sim_value (x, y)).
Proof.
  intros Hi Hj Hx Hy. unfold sim_entry, Py.index, tokens_of.
  rewrite Hi, Hj. cbn. rewrite Hx, Hy. cbn. by rewrite jaccard_score_eq.
Qed.

Lemma sim_results_ok (files : list str) (docs : list (list str)) (st : loaded) :
  length files = length docs →
  (∀ k f d, files !! k = Some f → docs !! k = Some d →
            docs_tokens st !! f = Some d) →
  sim_results files st = Py.Ok (sim_value <$> pairs_of (zip files docs)).
Proof.
  intros Hlen Hst. unfold sim_results, Py.range.
  set (l := zip files docs).
  assert (Hl : length l = length files).
  { unfold l. rewrite length_zip_with. lia. }
  assert (Hlk : ∀ k x, l !! k = Some x →
            files !! k = Some x.1 ∧ docs_tokens st !! x.1 = Some x.2).
  { intros k [f d] Hk. unfold l in Hk.
    apply lookup_zip_with_Some in Hk as (f' & d' & [= <- <-] & Hf & Hd).
    split; [done|]. by eapply Hst. }
  rewrite Nat.sub_0_r, <- Hl.
  rewrite (for_each_seq _ (λ x l', sim_value <$> ((λ y, (x, y)) <$> l')) l 0).
  { cbn. by rewrite concat_rows_pairs. }
  intros k x Hk. destruct (Hlk k x Hk) as [Hx Hx']. simpl.
  replace (length l - (k + 1)) with (length (drop (S k) l))
    by (rewrite length_drop; lia).
  rewrite (for_each_seq _ (λ y _, sim_value (x, y)) (drop (S k) l) (k + 1)).
  { by rewrite rows_fmap, <- list_fmap_compose. }
  intros j y Hj. rewrite lookup_drop in Hj.
  destruct (Hlk _ y Hj) as [Hy Hy'].
  replace (k + 1 + j) with (S k + j) by lia.
  by apply sim_entry_ok.
Qed.

Lemma top_words_ok (st : loaded) (total_words : nat) :
  total_words ≠ 0 ∨ total_counter st = [] →
  top_words st total_words
  = Py.Ok (word_value total_words <$> Counter.most_common 100 (total_counter st)).
Proof.
  intros H. unfold top_words. apply for_each_ok. intros e He.
  destruct H as [H|H].
  - by rewrite truediv_ok.
  - rewrite H in He. by apply elem_of_nil in He.
Qed.

(** Occurrences of the character [c] in [s]. *)
Definition count_char (c : ascii) (s : str) : nat :=
  length (filter (λ x, x = c) s).

Lemma count_one_char (s : str) (c : ascii) :
  Str.count s [c] = count_char c s.
Proof.
  unfold Str.count, count_char. induction s as [|x s IH]; [done|].
  cbn [Str.count_from Str.startswith length]. rewrite filter_cons.
  unfold Str.eqb. rewrite andb_true_r.
  destruct (decide (x = c)) as [->|Hne].
  - rewrite bool_decide_eq_true_2 by done. simpl. by rewrite IH.
  - rewrite bool_decide_eq_false_2 by done. by rewrite IH.
Qed.

(** Sentence marks in a text: the characters [.], [!] and [?]. *)
Definition sentence_marks (txt : str) : nat :=
  count_char "."%char txt + count_char "!"%char txt + count_char "?"%char txt.

Lemma est_sentence_count_eq (st : loaded) :
  est_sentence_count st = sum_list_with sentence_marks (texts_raw st).
Proof.
  unfold est_sentence_count, sentence_marks.
  induction (texts_raw st) as [|t ts IH]; [done|].
  cbn [sum_list_with]. rewrite IH.
  change (str_of ".") with ["."%char]. change (str_of "!") with ["!"%char].
  change (str_of "?") with ["?"%char]. by rewrite !count_one_char.
Qed.
End report.

(** ** A run of the Analyzer *)

Section analyzer_run.
Import Analyzer.

(** The report for the documents [files] with the texts [ts], as a
    function of them. *)
Definition report_of (now : str) (files ts : list str) : Json.value :=
  let docs := Str.split <$> ts in
  let words := concat docs in
  let table := Counter.update [] words in
  let bigram_table := Counter.update [] (concat (bigrams_of <$> docs)) in
  let total_words := length words in
  let sentences := sum_list_with sentence_marks ts in
  let avg_sentence_len :=
    (Z.of_nat total_words # Pos.of_nat (max sentences 1))%Q in
  let avg_word_len :=
    if decide (total_words = 0) then 0%Q
    else (Z.of_nat (sum_list_with length words) # Pos.of_nat total_words)%Q in
  Json.Object
    [(str_of "processing_timestamp", Json.String now);
     (str_of "documents_processed", Json.int (length files));
     (str_of "total_words", Json.int total_words);
     (str_of "unique_words", Json.int (length table));
     (str_of "top_100_words",
       Json.Array (word_value total_words <$> Counter.most_common 100 table));
     (str_of "document_similarity",
       Json.Array (sim_value <$> pairs_of (zip files docs)));
     (str_of "top_bigrams",
       Json.Array (bigram_value <$> Counter.most_common 50 bigram_table));
     (str_of "readability", Json.Object
        [(str_of "avg_sentence_length", Json.Num avg_sentence_len);
         (str_of "avg_word_length", Json.Num avg_word_len);
         (str_of "complexity_score",
           Json.Num (avg_sentence_len * avg_word_len)%Q)])].

Lemma build_report_ok (now : str) (files ts : list str) :
  NoDup files → length files = length ts →
  build_report now files (loaded_from files ts (Loaded ∅ [] [] []))
  = Py.Ok (report_of now files ts).
Proof.
  intros Hnd Hlen. unfold build_report, report_of.
  rewrite (sim_results_ok files (Str.split <$> ts)).
  2: { by rewrite length_fmap. }
  2: { intros k f d Hf Hd. apply list_lookup_fmap_Some in Hd as (t & -> & Ht).
       cbn. by eapply loaded_tokens. }
  rewrite est_sentence_count_eq. unfold top_bigrams.
  cbn [mbind result_bind Py.bind loaded_from total_counter bigram_counter
       texts_raw app].
  rewrite sum_values_update. cbn [Counter.values fmap list_fmap sum_list_with].
  rewrite Nat.add_0_l, top_words_ok.
  2: { cbn [loaded_from total_counter].
       destruct (concat (Str.split <$> ts)); [by right|by left]. }
  cbn [mbind result_bind Py.bind loaded_from total_counter].
  generalize (pairs_of (zip files (Str.split <$> ts))).
  generalize (concat (bigrams_of <$> (Str.split <$> ts))).
  generalize (concat (Str.split <$> ts)). intros words bigrams sims.
  rewrite (truediv_ok _ (_ `max` 1)) by lia. cbn [mbind result_bind Py.bind].
  destruct (decide (length words = 0)) as [Hz|Hz]; cbn [mbind result_bind Py.bind].
  - done.
  - rewrite truediv_ok by done. cbn [mbind result_bind Py.bind].
    by rewrite elements_length_update.
Qed.

Lemma file_list_NoDup (w : shared) : NoDup (file_list w).
Proof. apply (NoDup_listing ".json"). Qed.

Lemma compute_spec (now : str) (w : shared) :
  (∃ ts, Forall2 (λ f t, text_of w f = Some t) (file_list w) ts
         ∧ compute now w = Py.Ok (report_of now (file_list w) ts))
  ∨ ((∃ f, f ∈ file_list w ∧ text_of w f = None)
     ∧ ∃ e, compute now w = Py.Raise e).
Proof.
  unfold compute.
  destruct (texts_or_invalid w (file_list w)) as [[ts Hts]|Hbad].
  - left. exists ts. split; [done|].
    rewrite (load_loop_ok _ _ _ _ Hts). cbn [mbind result_bind Py.bind].
    apply build_report_ok; [apply file_list_NoDup|].
    by eapply Forall2_length.
  - right. split; [done|].
    destruct (load_loop_invalid w (file_list w) (Loaded ∅ [] [] []) Hbad)
      as [e ->]. by exists e.
Qed.

Definition with_report (w : shared) (report : Json.value) : shared :=
  Shared (raw w) (fetch_complete w) (processed w) (process_complete w)
         (Some report).

(** A run that finishes has loaded a text from every file of the
    list, and has written the report for these texts. *)
Lemma main_finished (now : str) (w w' : shared) :
  main now w = (Finished, w') →
  Forall2 (λ f t, text_of w f = Some t) (file_list w) (texts w)
  ∧ w' = with_report w (report_of now (file_list w) (texts w)).
Proof.
  unfold main. destruct (process_complete w) eqn:Hm; [|done].
  destruct (compute_spec now w) as [(ts & Hts & ->)|(_ & e & ->)]; [|done].
  unfold texts, with_report. rewrite (texts_all _ _ _ Hts), Hm.
  intros [= <-]. by split.
Qed.

Lemma main_finishes (now : str) (w : shared) :
  is_Some (process_complete w) →
  (∀ f, f ∈ file_list w → is_Some (text_of w f)) →
  main now w = (Finished, with_report w (report_of now (file_list w) (texts w))).
Proof.
  intros [m Hm] Hall. unfold main. rewrite Hm.
  destruct (compute_spec now w) as [(ts & Hts & ->)|((f & Hf & Hnone) & _)].
  - unfold texts. by rewrite (texts_all _ _ _ Hts), <- Hm.
  - destruct (Hall f Hf) as [t Ht]. congruence.
Qed.

Lemma main_fails (now : str) (w : shared) (f : str) :
  is_Some (process_complete w) →
  f ∈ file_list w → text_of w f = None →
  ∃ e, main now w = (Failed e, w).
Proof.
  intros [m Hm] Hf Hnone. unfold main. rewrite Hm.
  destruct (compute_spec now w) as [(ts & Hts & _)|(_ & e & ->)]; [|by exists e].
  apply list_elem_of_lookup in Hf as [k Hk].
  destruct (Forall2_lookup_l _ _ _ _ _ Hts Hk) as (t & _ & Ht). congruence.
Qed.
End analyzer_run.

(** ** Sample worlds *)

Definition text_file (text : string) : Json.file :=
  Json.Valid (Json.Object [(str_of "text", Json.String text)]).

(** Two documents and a file the Analyzer does not list. *)
Definition two_docs : shared :=
  Shared ∅ true
    (list_to_map [(str_of "b.json", text_file "dog bird");
                  (str_of "a.json", text_file "cat dog");
                  (str_of "notes.txt", Json.Malformed)])
    (Some Json.Null) None.

(** A document whose record has no text. *)
Definition broken_doc : shared :=
  Shared ∅ true
    (list_to_map [(str_of "a.json", text_file "cat dog");
                  (str_of "b.json", Json.Valid (Json.Object []))])
    (Some Json.Null) None.

(** ** Failure of the Analyzer *)

(** C9. When the marker is there and one of the listed files is
    structurally invalid, that is, [json.load] rejects it or the value it
    holds has no string under [text] (which covers the files that are
    not valid JSON and the records without the field), the run ends on an
    error and leaves the shared directories as they were: no report is
    written.  Conversely a run changes the report file only if it
    finishes, and it finishes only if every listed file gave its text. *)
Theorem invalid_artifact_aborts :
  (∀ (now : str) (w : shared) (f : str) (file : Json.file),
      is_Some (process_complete w) →
      f ∈ Analyzer.file_list w → processed w !! f = Some file →
      stored_text file = None →
      ∃ e, Analyzer.main now w = (Failed e, w))
  ∧ (∀ (now : str) (w w' : shared) (r : run),
      Analyzer.main now w = (r, w') →
      final_report w' ≠ final_report w →
      r = Finished ∧ ∀ f, f ∈ Analyzer.file_list w → is_Some (text_of w f)).
Proof.
  split.
  - intros now w f file Hm Hf Hfile Hbad. apply (main_fails now w f Hm Hf).
    unfold text_of. by rewrite Hfile.
  - intros now w w' r Hrun Hne.
    assert (r = Finished) as ->.
    { unfold Analyzer.main in Hrun.
      destruct (process_complete w); [|by injection Hrun as <- <-].
      destruct (Analyzer.compute now w); injection Hrun as <- <-; done. }
    split; [done|]. intros f Hf.
    destruct (main_finished now w w' Hrun) as [Hts _].
    apply list_elem_of_lookup in Hf as [k Hk].
    destruct (Forall2_lookup_l _ _ _ _ _ Hts Hk) as (t & _ & Ht). by exists t.
Qed.

Lemma invalid_artifact_aborts_witness :
  ∃ e, Analyzer.main "now" broken_doc = (Failed e, broken_doc).
Proof.
  apply (proj1 invalid_artifact_aborts "now" broken_doc (str_of "b.json")
           (Json.Valid (Json.Object []))).
  - by eexists.
  - vm_compute. right. left.
  - by vm_compute.
  - reflexivity.
Defined.

(** The error of that run is the missing key. *)
Example broken_doc_run :
  Analyzer.main "now" broken_doc = (Failed Py.KeyError, broken_doc).
Proof. by vm_compute. Qed.

(** ** The similarity pairs *)

Section similarity_pairs.
Import Analyzer.

(** The documents of the corpus with their names, in the order of the
    file list. *)
Definition named_docs (w : shared) : list doc :=
  zip (file_list w) (documents w).

Definition name_before (x y : doc) : Prop := Str.lt x.1 y.1.

(** A field of the report file. *)
Definition report_field (key : str) (w : shared) : option Json.value :=
  match final_report w with
  | Some report => Json.field key report
  | None => None
  end.

Lemma StronglySorted_lookup {A} (R : relation A) (l : list A)
    (i j : nat) (x y : A) :
  StronglySorted R l → i < j → l !! i = Some x → l !! j = Some y → R x y.
Proof.
  intros Hl. revert i j. induction Hl as [|z l Hl IH Hz]; intros i j Hij Hi Hj.
  - done.
  - destruct j as [|j]; [lia|]. destruct i as [|i]; simpl in *.
    + injection Hi as ->. rewrite Forall_forall in Hz. apply Hz.
      apply list_elem_of_lookup. by exists j.
    + apply (IH i j); [lia|done..].
Qed.

Lemma StronglySorted_NoDup {A} (R : relation A) (l : list A) :
  (∀ x, ¬ R x x) → StronglySorted R l → NoDup l.
Proof.
  intros Hirr. induction 1 as [|x l Hl IH Hx]; constructor; [|done].
  intros Hin. rewrite Forall_forall in Hx. by apply (Hirr x), Hx.
Qed.

Lemma StronglySorted_fmap_inv {A B} (f : A → B) (R : relation B) (l : list A) :
  StronglySorted R (f <$> l) → StronglySorted (λ x y, R (f x) (f y)) l.
Proof.
  induction l as [|x l IH]; csimpl; intros H; [constructor|].
  apply StronglySorted_cons in H as [Hx Hl]. constructor; [by apply IH|].
  by rewrite Forall_fmap in Hx.
Qed.

Lemma named_docs_finished (now : str) (w w' : shared) :
  main now w = (Finished, w') →
  (named_docs w).*1 = file_list w
  ∧ ∀ x, x ∈ named_docs w →
         ∃ t, text_of w x.1 = Some t ∧ x.2 = Str.split t.
Proof.
  intros Hrun. destruct (main_finished now w w' Hrun) as [Hts _].
  pose proof (Forall2_length _ _ _ Hts) as Hlen.
  unfold named_docs, documents. split.
  - apply fst_zip. rewrite length_fmap. lia.
  - intros [f d] Hx. apply list_elem_of_lookup in Hx as [k Hk].
    apply lookup_zip_with_Some in Hk as (f' & d' & [= <- <-] & Hf & Hd).
    apply list_lookup_fmap_Some in Hd as (t & -> & Ht).
    exists t. split; [|done].
    by destruct (Forall2_lookup_lr _ _ _ _ _ _ Hts Hf Ht).
Qed.

Lemma named_docs_sorted (now : str) (w w' : shared) :
  main now w = (Finished, w') → StronglySorted name_before (named_docs w).
Proof.
  intros Hrun. destruct (named_docs_finished now w w' Hrun) as [Hfst _].
  apply (StronglySorted_fmap_inv fst Str.lt). rewrite Hfst.
  apply (listing_strictly_sorted ".json").
Qed.

Lemma pair_before_irrefl (p : doc * doc) : ¬ pair_before name_before p p.
Proof.
  unfold pair_before, name_before.
  intros [H|[_ H]]; apply lt_irrefl in H; done.
Qed.

(** C3. After a run that finishes, the [document_similarity] list of
    the report has one entry for each pair of documents [i < j] of the
    file list, in the order of the two loops: [n (n - 1) / 2] entries
    for [n] files.  An entry names document [i] as [doc1] and document
    [j] as [doc2], so that [doc1] is strictly before [doc2] in the
    order of the file names; no document is paired with itself, and no
    pair appears twice, in either order. *)
Theorem document_similarity_pairs (now : str) (w w' : shared) :
  main now w = (Finished, w') →
  let files := file_list w in
  let pairs := pairs_of (named_docs w) in
  report_field "document_similarity" w'
    = Some (Json.Array (sim_value <$> pairs))
  ∧ (named_docs w).*1 = files
  ∧ StronglySorted Str.lt files
  ∧ length (sim_value <$> pairs) = length files * (length files - 1) / 2
  ∧ (∀ x y, (x, y) ∈ pairs ↔
            ∃ i j, i < j ∧ named_docs w !! i = Some x
                   ∧ named_docs w !! j = Some y)
  ∧ StronglySorted (pair_before name_before) pairs
  ∧ NoDup pairs
  ∧ (∀ x y, (x, y) ∈ pairs →
            Str.lt x.1 y.1 ∧ x.1 ≠ y.1 ∧ ¬ ((y, x) ∈ pairs)
            ∧ jaccard_score x.2 y.2 = Py.Ok (similarity x.2 y.2)).
Proof.
  intros Hrun files pairs.
  destruct (main_finished now w w' Hrun) as [Hts Hw'].
  destruct (named_docs_finished now w w' Hrun) as [Hfst Hdocs].
  pose proof (named_docs_sorted now w w' Hrun) as Hsorted.
  assert (Hlt : ∀ x y, (x, y) ∈ pairs → Str.lt x.1 y.1).
  { intros x y (i & j & Hij & Hi & Hj)%elem_of_pairs_of.
    by apply (StronglySorted_lookup name_before (named_docs w) i j). }
  split_and!.
  - by rewrite Hw'.
  - done.
  - apply (listing_strictly_sorted ".json").
  - rewrite length_fmap. unfold pairs. rewrite pairs_of_length.
    unfold files. by rewrite <- Hfst, length_fmap.
  - intros x y. apply elem_of_pairs_of.
  - by apply pairs_of_sorted.
  - apply (StronglySorted_NoDup (pair_before name_before));
      [apply pair_before_irrefl|by apply pairs_of_sorted].
  - intros x y Hxy. pose proof (Hlt x y Hxy) as Hlt'. split_and!.
    + done.
    + by destruct Hlt'.
    + intros Hyx. by apply (lt_asym x.1 y.1), Hlt.
    + apply jaccard_score_eq.
Qed.

Lemma document_similarity_pairs_witness :
  report_field "document_similarity"
    (with_report two_docs
       (report_of "now" (file_list two_docs) (texts two_docs)))
  = Some (Json.Array
      [Json.Object [(str_of "doc1", Json.String "a.json");
                    (str_of "doc2", Json.String "b.json");
                    (str_of "similarity", Json.Num (1 # 3)%Q)]]).
Proof.
  destruct (document_similarity_pairs "now" two_docs
              (with_report two_docs
                 (report_of "now" (file_list two_docs) (texts two_docs))))
    as [H _].
  - by vm_compute.
  - rewrite H. by vm_compute.
Defined.
End similarity_pairs.

(** ** Rankings *)

Section ranking.
Import Counter.

Lemma occurrences_pos (w : str) (ws : list str) :
  w ∈ ws → 0 < occurrences w ws.
Proof.
  intros Hin. unfold occurrences.
  assert (w ∈ filter (λ x : str, x = w) ws) as Hf
    by (by apply list_elem_of_filter).
  destruct (filter _ ws); [by apply elem_of_nil in Hf|simpl; lia].
Qed.

Lemma table_entry (ws : list str) (e : str * nat) :
  e ∈ update [] ws → e.2 = occurrences e.1 ws ∧ e.1 ∈ ws.
Proof.
  destruct e as [w n]. intros He. simpl. split.
  - rewrite <- (get_elem_of (update [] ws) w n); [|by apply NoDup_update, NoDup_nil|done].
    by rewrite get_update.
  - assert (w ∈ (update [] ws).*1) as Hk.
    { apply list_elem_of_fmap. by exists (w, n). }
    apply elem_of_keys_update in Hk as [Hk|Hk]; [by apply elem_of_nil in Hk|done].
Qed.

(** What [most_common n] returns on the table of the words [ws]: the
    [n] entries with the greatest counts, or all if there are fewer, in
    decreasing order of count, each with the number of occurrences of
    its key. *)
Lemma most_common_top (n : nat) (ws : list str) :
  let ranked := most_common n (update [] ws) in
  length ranked = min n (length (update [] ws))
  ∧ StronglySorted (λ x y : str * nat, y.2 ≤ x.2) ranked
  ∧ NoDup ranked.*1
  ∧ (∀ e, e ∈ ranked → e.2 = occurrences e.1 ws ∧ e.1 ∈ ws ∧ 0 < e.2)
  ∧ (∀ x e, x ∈ ws → x ∉ ranked.*1 → e ∈ ranked → occurrences x ws ≤ e.2).
Proof.
  intros ranked.
  destruct (most_common_spec n (update [] ws)) as (rest & _ & Hperm & Hlen & Hsorted).
  fold ranked in Hperm, Hlen, Hsorted.
  assert (Hin : ∀ e, e ∈ ranked ++ rest ↔ e ∈ update [] ws)
    by (intros e; by rewrite Hperm).
  split_and!.
  - done.
  - by apply StronglySorted_app in Hsorted as (_ & H & _).
  - assert (NoDup (ranked ++ rest).*1) as Hnd.
    { rewrite Hperm. apply NoDup_update. constructor. }
    rewrite fmap_app in Hnd. by apply NoDup_app in Hnd as [H _].
  - intros e He.
    assert (e ∈ update [] ws) as He' by (apply Hin, elem_of_app; by left).
    destruct (table_entry ws e He') as [H1 H2].
    split_and!; [done..|]. rewrite H1. by apply occurrences_pos.
  - intros x e Hx Hnot He.
    assert (x ∈ (update [] ws).*1) as Hk
      by (apply elem_of_keys_update; by right).
    apply list_elem_of_fmap in Hk as ([x' m] & -> & Hxm).
    destruct (table_entry ws _ Hxm) as [Hm _]. simpl in *. rewrite <- Hm.
    apply Hin, elem_of_app in Hxm as [Hxm|Hxm].
    + exfalso. apply Hnot. apply list_elem_of_fmap. by exists (x', m).
    + apply (StronglySorted_app_1_elem_of _ _ _ _ _ Hsorted He Hxm).
Qed.
End ranking.

(** ** The bigram table *)

Section bigram_table.
Import Analyzer.

(** All bigrams of the corpus, document by document. *)
Definition corpus_bigrams (w : shared) : list str :=
  concat (bigrams_of <$> documents w).

(** C5. A document of [k] tokens has [max (k - 1) 0] bigrams, the
    pairs of tokens that follow each other in it, joined by a space.
    Loading a document adds exactly these to the global table.  After a
    run that finishes the table counts the bigrams of each document, so
    that no bigram spans two documents, and [top_bigrams] lists at most
    50 of its entries, those of greatest count, by decreasing count. *)
Theorem bigram_table_spec :
  (∀ words : list str,
      Z.of_nat (length (make_ngrams words 2))
      = Z.max (Z.of_nat (length words) - 1) 0
      ∧ ∀ i bg, make_ngrams words 2 !! i = Some bg ↔
                ∃ a b, words !! i = Some a ∧ words !! (i + 1) = Some b
                       ∧ bg = a ++ str_of " " ++ b)
  ∧ (∀ (w : shared) (st st' : loaded) (f : str),
      load_one w st f = Py.Ok st' →
      ∃ t, text_of w f = Some t
           ∧ bigram_counter st'
             = Counter.update (bigram_counter st) (make_ngrams (Str.split t) 2)
           ∧ sum_list (Counter.values (bigram_counter st'))
             = sum_list (Counter.values (bigram_counter st))
               + (length (Str.split t) - 1))
  ∧ (∀ (now : str) (w w' : shared),
      main now w = (Finished, w') →
      let ranked :=
        Counter.most_common 50 (Counter.update [] (corpus_bigrams w)) in
      report_field "top_bigrams" w' = Some (Json.Array (bigram_value <$> ranked))
      ∧ length (bigram_value <$> ranked) ≤ 50
      ∧ StronglySorted (λ x y : str * nat, y.2 ≤ x.2) ranked
      ∧ NoDup ranked.*1
      ∧ (∀ e, e ∈ ranked →
              e.2 = occurrences e.1 (corpus_bigrams w)
              ∧ e.1 ∈ corpus_bigrams w ∧ 0 < e.2)
      ∧ (∀ x e, x ∈ corpus_bigrams w → x ∉ ranked.*1 → e ∈ ranked →
                occurrences x (corpus_bigrams w) ≤ e.2)).
Proof.
  split_and!.
  - intros words. split.
    + rewrite make_ngrams_length. lia.
    + intros i bg. split; [apply make_ngrams_inv|].
      intros (a & b & Ha & Hb & ->). by apply make_ngrams_lookup.
  - intros w st st' f Hload. destruct (text_of w f) as [t|] eqn:Ht.
    + exists t. rewrite (load_one_text _ _ _ _ Ht) in Hload.
      injection Hload as <-. cbn [bigram_counter]. unfold bigrams_of.
      split_and!; [done..|].
      by rewrite sum_values_update, make_ngrams_length.
    + destruct (load_one_invalid w st f Ht) as [e He]. congruence.
  - intros now w w' Hrun ranked.
    destruct (main_finished now w w' Hrun) as [_ ->].
    destruct (most_common_top 50 (corpus_bigrams w)) as (Hlen & H2 & H3 & H4 & H5).
    fold ranked in Hlen, H2, H3, H4, H5. split_and!; try done.
    rewrite length_fmap. lia.
Qed.

Lemma bigram_table_spec_witness :
  report_field "top_bigrams"
    (with_report two_docs
       (report_of "now" (file_list two_docs) (texts two_docs)))
  = Some (Json.Array
      [Json.Object [(str_of "bigram", Json.String "cat dog");
                    (str_of "count", Json.int 1)];
       Json.Object [(str_of "bigram", Json.String "dog bird");
                    (str_of "count", Json.int 1)]]).
Proof.
  destruct (proj2 (proj2 bigram_table_spec) "now" two_docs
              (with_report two_docs
                 (report_of "now" (file_list two_docs) (texts two_docs))))
    as [H _].
  - by vm_compute.
  - rewrite H. by vm_compute.
Defined.

(** The example of the specification: one document of three tokens
    gives two bigrams. *)
Example bigrams_of_three :
  make_ngrams (Str.split "the cat sat") 2 = [str_of "the cat"; str_of "cat sat"].
Proof. by vm_compute. Qed.

Example bigrams_of_one : make_ngrams (Str.split "alone") 2 = [].
Proof. by vm_compute. Qed.
End bigram_table.

(** ** Readability *)

Section readability.
Import Analyzer.

(** All token occurrences of the corpus. *)
Definition corpus_words (w : shared) : list str := concat (documents w).

(** C8. After a run that finishes, with [total_words] the number of
    token occurrences of the corpus and [sentences] the number of
    characters [.], [!] and [?] in the stored texts of all documents:
    [avg_sentence_length] is [total_words / max sentences 1];
    [avg_word_length] is the sum of the lengths of all token
    occurrences over [total_words], and 0 when there is no token;
    [complexity_score] is the product of the two. *)
Theorem readability_spec (now : str) (w w' : shared) :
  main now w = (Finished, w') →
  let total_words := length (corpus_words w) in
  let sentences := sum_list_with sentence_marks (texts w) in
  let characters := sum_list_with length (corpus_words w) in
  ∃ avg_sentence_length avg_word_length complexity_score : Q,
    report_field "readability" w'
    = Some (Json.Object
        [(str_of "avg_sentence_length", Json.Num avg_sentence_length);
         (str_of "avg_word_length", Json.Num avg_word_length);
         (str_of "complexity_score", Json.Num complexity_score)])
    ∧ report_field "total_words" w' = Some (Json.int total_words)
    ∧ (avg_sentence_length
       == inject_Z (Z.of_nat total_words)
          / inject_Z (Z.of_nat (max sentences 1)))%Q
    ∧ (avg_word_length
       == if decide (total_words = 0%nat) then 0
          else inject_Z (Z.of_nat characters)
               / inject_Z (Z.of_nat total_words))%Q
    ∧ (complexity_score == avg_sentence_length * avg_word_length)%Q.
Proof.
  intros Hrun total_words sentences characters.
  destruct (main_finished now w w' Hrun) as [_ ->].
  eexists _, _, _. split_and!.
  - reflexivity.
  - reflexivity.
  - apply quotient_Qdiv. lia.
  - fold (documents w) (corpus_words w). fold total_words.
    destruct (decide (total_words = 0)); [reflexivity|].
    by apply quotient_Qdiv.
  - reflexivity.
Qed.

(** [cat dog] and [dog bird.]: four words, one sentence mark, fourteen
    characters. *)
Definition two_sentences : shared :=
  Shared ∅ true
    (list_to_map [(str_of "a.json", text_file "cat dog");
                  (str_of "b.json", text_file "dog bird.")])
    (Some Json.Null) None.

Lemma readability_spec_witness :
  report_field "readability"
    (with_report two_sentences
       (report_of "now" (file_list two_sentences) (texts two_sentences)))
  = Some (Json.Object
      [(str_of "avg_sentence_length", Json.Num (4 # 1)%Q);
       (str_of "avg_word_length", Json.Num (14 # 4)%Q);
       (str_of "complexity_score", Json.Num (56 # 4)%Q)]).
Proof.
  destruct (readability_spec "now" two_sentences
              (with_report two_sentences
                 (report_of "now" (file_list two_sentences)
                    (texts two_sentences))))
    as (a & b & c & H & _).
  - by vm_compute.
  - rewrite H. vm_compute in H. injection H as -> -> ->. reflexivity.
Defined.
End readability.

(** ** The most frequent words *)

Section top_words.
Import Analyzer.

(** The number of documents whose token sequence contains [word]. *)
Definition document_frequency (w : shared) (word : str) : nat :=
  length (filter (λ d : list str, word ∈ d) (documents w)).

(** The shape the specification gives to an entry of [top_100_words]:
    the word, its count, and under [documents] its document
    frequency. *)
Definition has_document_frequency (w : shared) (entry : Json.value) : Prop :=
  ∃ word count,
    Json.field "word" entry = Some (Json.String word)
    ∧ Json.field "count" entry = Some (Json.int count)
    ∧ Json.field "documents" entry
      = Some (Json.int (document_frequency w word)).

(** C1, as stated, fails: the entries of the report of [two_docs] have
    no [documents] field. *)
Lemma top_words_lack_document_frequency :
  ¬ (∀ (now : str) (w w' : shared) (entries : list Json.value),
       main now w = (Finished, w') →
       report_field "top_100_words" w' = Some (Json.Array entries) →
       Forall (has_document_frequency w) entries).
Proof.
  intros H.
  assert (Hrun : main "now" two_docs
                 = (Finished,
                    with_report two_docs
                      (report_of "now" (file_list two_docs) (texts two_docs))))
    by (by vm_compute).
  assert (Hfield :
    report_field "top_100_words"
      (with_report two_docs
         (report_of "now" (file_list two_docs) (texts two_docs)))
    = Some (Json.Array
        (word_value 4 <$> [(str_of "dog", 2); (str_of "cat", 1);
                           (str_of "bird", 1)])))
    by (by vm_compute).
  pose proof (H _ _ _ _ Hrun Hfield) as Hall.
  apply Forall_cons_1 in Hall as [(word & count & _ & _ & Hdocs) _].
  discriminate Hdocs.
Qed.

(** C1, amended.  After a run that finishes, [top_100_words] lists at
    most 100 entries of the table of all token occurrences, those of
    greatest count, by decreasing count.  An entry has exactly the
    fields [word], [count] and [frequency]: the token, the number of
    its occurrences in the corpus, and that number over the total
    number of token occurrences. *)
Theorem top_words_spec (now : str) (w w' : shared) :
  main now w = (Finished, w') →
  let total_words := length (corpus_words w) in
  let ranked := Counter.most_common 100 (Counter.update [] (corpus_words w)) in
  report_field "top_100_words" w'
    = Some (Json.Array (word_value total_words <$> ranked))
  ∧ length (word_value total_words <$> ranked) ≤ 100
  ∧ StronglySorted (λ x y : str * nat, y.2 ≤ x.2) ranked
  ∧ NoDup ranked.*1
  ∧ (∀ x e, x ∈ corpus_words w → x ∉ ranked.*1 → e ∈ ranked →
            occurrences x (corpus_words w) ≤ e.2)
  ∧ (∀ e, e ∈ ranked →
          e.2 = occurrences e.1 (corpus_words w)
          ∧ e.1 ∈ corpus_words w
          ∧ ∃ frequency : Q,
              word_value total_words e
              = Json.Object [(str_of "word", Json.String e.1);
                             (str_of "count", Json.int e.2);
                             (str_of "frequency", Json.Num frequency)]
              ∧ (frequency
                 == inject_Z (Z.of_nat e.2) / inject_Z (Z.of_nat total_words))%Q
              ∧ Json.field "documents" (word_value total_words e) = None).
Proof.
  intros Hrun total_words ranked.
  destruct (main_finished now w w' Hrun) as [_ ->].
  destruct (most_common_top 100 (corpus_words w)) as (Hlen & H2 & H3 & H4 & H5).
  fold ranked in Hlen, H2, H3, H4, H5. split_and!; try done.
  - rewrite length_fmap. lia.
  - intros e He. destruct (H4 e He) as (Hc & Hin & Hpos).
    split_and!; [done..|]. eexists. split_and!; [reflexivity| |reflexivity].
    apply quotient_Qdiv. unfold total_words.
    destruct (corpus_words w); [by apply elem_of_nil in Hin|done].
Qed.

Lemma top_words_spec_witness :
  report_field "top_100_words"
    (with_report two_docs
       (report_of "now" (file_list two_docs) (texts two_docs)))
  = Some (Json.Array
      [Json.Object [(str_of "word", Json.String "dog");
                    (str_of "count", Json.int 2);
                    (str_of "frequency", Json.Num (2 # 4)%Q)];
       Json.Object [(str_of "word", Json.String "cat");
                    (str_of "count", Json.int 1);
                    (str_of "frequency", Json.Num (1 # 4)%Q)];
       Json.Object [(str_of "word", Json.String "bird");
                    (str_of "count", Json.int 1);
                    (str_of "frequency", Json.Num (1 # 4)%Q)]]).
Proof.
  destruct (top_words_spec "now" two_docs
              (with_report two_docs
                 (report_of "now" (file_list two_docs) (texts two_docs))))
    as [H _].
  - by vm_compute.
  - rewrite H. by vm_compute.
Defined.
End top_words.

(** ** [str.replace] *)

Section replace.
Lemma eqb_refl (c : ascii) : Str.eqb c c = true.
Proof. unfold Str.eqb. by apply bool_decide_eq_true_2. Qed.

Lemma startswith_app (p s : str) : Str.startswith p (p ++ s) = true.
Proof. induction p as [|c p IH]; simpl; [done|]. by rewrite eqb_refl, IH. Qed.

Lemma startswith_spec (p s : str) :
  Str.startswith p s = true ↔ ∃ t, s = p ++ t.
Proof.
  revert s. induction p as [|c p IH]; intros s; simpl.
  - split; [by exists s|done].
  - destruct s as [|d s]; [split; [done|by intros [t Ht]]|].
    rewrite andb_true_iff, IH. unfold Str.eqb. rewrite bool_decide_eq_true.
    split.
    + intros [-> [t ->]]. by exists t.
    + intros [t [= -> ->]]. split; [done|by exists t].
Qed.

(** No occurrence of [old] starts in the first [n] positions of [s]. *)
Definition none_before (old : str) (n : nat) (s : str) : Prop :=
  ∀ i, i < n → Str.startswith old (drop i s) = false.

Lemma replace_from_skip (old new x s : str) :
  Str.replace_from old new (length x) (x ++ s) = Str.replace_from old new 0 s.
Proof. induction x as [|c x IH]; simpl; [by destruct s|done]. Qed.

Lemma replace_from_prefix (old new a s : str) :
  none_before old (length a) (a ++ s) →
  Str.replace_from old new 0 (a ++ s) = a ++ Str.replace_from old new 0 s.
Proof.
  induction a as [|c a IH]; intros Hno; [done|].
  assert (H0 : Str.startswith old (c :: a ++ s) = false)
    by (apply (Hno 0); simpl; lia).
  cbn [app Str.replace_from]. rewrite H0. f_equal. apply IH.
  intros i Hi. apply (Hno (S i)). simpl. lia.
Qed.

Lemma replace_first (old new a b : str) :
  old ≠ [] →
  none_before old (length a) (a ++ old ++ b) →
  Str.replace (a ++ old ++ b) old new = a ++ new ++ Str.replace b old new.
Proof.
  intros Hold Hno. unfold Str.replace. rewrite replace_from_prefix by done.
  f_equal. destruct old as [|c old]; [done|].
  cbn [app Str.replace_from]. change (c :: old ++ b) with ((c :: old) ++ b).
  rewrite startswith_app. f_equal.
  replace (length (c :: old) - 1) with (length old) by (simpl; lia).
  apply replace_from_skip.
Qed.

Lemma replace_none (old new s : str) :
  none_before old (length s) s → Str.replace s old new = s.
Proof.
  intros Hno. unfold Str.replace.
  rewrite <- (app_nil_r s) at 1. rewrite replace_from_prefix.
  - simpl. by rewrite app_nil_r.
  - by rewrite app_nil_r.
Qed.
End replace.

(** ** A run of the Processor *)

Section processor_run.
Import ProcessorMain.

Definition output_path (file : str) : str :=
  Py.path_join processed_data_dir (output_name file).

Definition written (now : str) (w : shared) (file : str) : Json.file :=
  Json.Valid (result_of now file (default [] (raw w !! file))).

Lemma loop_spec (now : str) (w : shared) (files : list str)
    (dir : gmap str Json.file) (paths : list str) :
  let st := foldl (step now w) (dir, paths) files in
  st.2 = paths ++ (output_path <$> files)
  ∧ (∀ name, (∀ f, f ∈ files → output_name f ≠ name) →
             st.1 !! name = dir !! name)
  ∧ (∀ f, f ∈ files →
          ∃ g, g ∈ files ∧ output_name g = output_name f
               ∧ st.1 !! output_name f = Some (written now w g)).
Proof.
  induction files as [|x files IH] using rev_ind; intros st.
  - unfold st. simpl. rewrite app_nil_r. split_and!; [done..|].
    intros f Hf. by apply elem_of_nil in Hf.
  - unfold st. rewrite foldl_app. cbn [foldl].
    destruct IH as (IH1 & IH2 & IH3).
    destruct (foldl (step now w) (dir, paths) files) as [d p].
    cbn [fst snd] in IH1, IH2, IH3. unfold step. cbn [fst snd].
    fold (output_path x) (written now w x). split_and!.
    + rewrite IH1, fmap_app, app_assoc. done.
    + intros name Hname. rewrite lookup_insert_ne.
      * apply IH2. intros f Hf. apply Hname, elem_of_app. by left.
      * apply Hname, elem_of_app. right. by left.
    + intros f Hf. destruct (decide (output_name x = output_name f)) as [Heq|Hne].
      * exists x. split_and!; [apply elem_of_app; right; by left|done|].
        rewrite <- Heq. by rewrite lookup_insert_eq.
      * apply elem_of_app in Hf as [Hf|Hf].
        -- destruct (IH3 f Hf) as (g & Hg & Hgf & Hlook).
           exists g. split_and!; [apply elem_of_app; by left|done|].
           by rewrite lookup_insert_ne.
        -- apply list_elem_of_singleton in Hf as ->. done.
Qed.

(** C10. A run of the Processor that finishes takes as documents
    exactly the files of the raw directory whose name ends with
    [.html], in the strictly increasing order of their names.  Each is
    written under its name with [.html] replaced by [.json], and the
    marker lists these paths in that order; where two documents get the
    same output name the later one is the one kept.  No other entry of
    the processed directory changes, so that a file without the suffix
    gives no artifact.  [replace] rewrites the occurrences of [.html]
    from left to right: every one, not only the suffix. *)
Theorem processor_documents :
  (∀ (now : str) (w w' : shared),
      main now w = (Finished, w') →
      let files := html_files w in
      (∀ f, f ∈ files ↔ is_Some (raw w !! f) ∧ Str.endswith f ".html" = true)
      ∧ StronglySorted Str.lt files
      ∧ process_complete w'
        = Some (Json.Object
            [(str_of "timestamp", Json.String now);
             (str_of "processed_files",
               Json.Array
                 (Json.String
                  <$> ((λ f, Py.path_join processed_data_dir
                               (Str.replace f ".html" ".json")) <$> files)))])
      ∧ (∀ f, f ∈ files →
              ∃ g content,
                g ∈ files
                ∧ Str.replace g ".html" ".json" = Str.replace f ".html" ".json"
                ∧ raw w !! g = Some content
                ∧ processed w' !! Str.replace f ".html" ".json"
                  = Some (Json.Valid (result_of now g content)))
      ∧ (∀ name, (∀ f, f ∈ files → Str.replace f ".html" ".json" ≠ name) →
                 processed w' !! name = processed w !! name)
      ∧ raw w' = raw w ∧ final_report w' = final_report w)
  ∧ (∀ a b : str,
      none_before ".html" (length a) (a ++ str_of ".html" ++ b) →
      Str.replace (a ++ str_of ".html" ++ b) ".html" ".json"
      = a ++ str_of ".json" ++ Str.replace b ".html" ".json")
  ∧ (∀ s : str,
      none_before ".html" (length s) s → Str.replace s ".html" ".json" = s).
Proof.
  split_and!.
  - intros now w w' Hrun files. unfold main in Hrun.
    destruct (fetch_complete w) eqn:Hfetch; [|done].
    destruct (loop_spec now w (html_files w) (processed w) []) as (H1 & H2 & H3).
    destruct (foldl (step now w) (processed w, []) (html_files w))
      as [dir paths] eqn:Hloop.
    cbn [fst snd] in H1, H2, H3. injection Hrun as <-.
    cbn [process_complete processed raw final_report].
    split_and!.
    + intros f. apply (elem_of_listing ".html").
    + apply (listing_strictly_sorted ".html").
    + by rewrite H1.
    + intros f Hf. destruct (H3 f Hf) as (g & Hg & Hgf & Hlook).
      assert (is_Some (raw w !! g)) as [content Hcontent].
      { by apply (elem_of_listing ".html") in Hg as [? _]. }
      exists g, content. split_and!; [done..|].
      unfold output_name in Hlook. rewrite Hlook. unfold written.
      by rewrite Hcontent.
    + apply H2.
    + done.
    + done.
  - intros a b Hno. by apply replace_first.
  - intros s Hno. by apply replace_none.
Qed.

(** A raw directory with two pages and a file that is no page. *)
Definition raw_pages : shared :=
  Shared (list_to_map [(str_of "b.html", str_of "<p>dog bird</p>");
                       (str_of "a.html.html", str_of "<p>cat dog</p>");
                       (str_of "readme.txt", str_of "no page")])
         true ∅ None None.

Lemma processor_documents_witness :
  process_complete (main "now" raw_pages).2
  = Some (Json.Object
      [(str_of "timestamp", Json.String "now");
       (str_of "processed_files",
         Json.Array [Json.String "/shared/processed/a.json.json";
                     Json.String "/shared/processed/b.json"])]).
Proof.
  destruct (proj1 processor_documents "now" raw_pages (main "now" raw_pages).2)
    as (_ & _ & H & _).
  - by vm_compute.
  - rewrite H. by vm_compute.
Defined.
End processor_run.

(** ** The matcher *)

Section matcher.
Import Re.

(** Put the segments [pre] before those of a match. *)
Definition after (pre : list str) (r : found) : found :=
  match r with
  | Some (segs, rest) => Some (pre ++ segs, rest)
  | None => None
  end.

Lemma exec_one_reject (ok : ascii → bool) (p : regex) (c : ascii) (s : str) :
  ok c = false → exec (Atom ok One :: p) (c :: s) = None.
Proof. intros H. cbn. by rewrite H. Qed.

Lemma exec_one_accept (ok : ascii → bool) (p : regex) (c : ascii) (s : str) :
  ok c = true → exec (Atom ok One :: p) (c :: s) = after [[c]] (exec p s).
Proof. intros H. cbn. rewrite H. by destruct (exec p s) as [[segs rest]|]. Qed.

Lemma after_after (a b : list str) (r : found) :
  after a (after b r) = after (a ++ b) r.
Proof. destruct r as [[segs rest]|]; [|done]. cbn. by rewrite app_assoc. Qed.

(** Two strings equal up to the case of their letters. *)
Definition ci_eq (x lit : str) : Prop := Str.lower <$> x = Str.lower <$> lit.

Lemma ci_eq_length (x lit : str) : ci_eq x lit → length x = length lit.
Proof. intros H. by rewrite <- (length_fmap Str.lower x), H, length_fmap. Qed.

Lemma exec_lit_ci (lit x : str) (p : regex) (s : str) :
  ci_eq x lit →
  exec (lit_ci lit ++ p) (x ++ s) = after ((λ c, [c]) <$> x) (exec p s).
Proof.
  revert x. induction lit as [|l lit IH]; intros [|c x] H; try done.
  - cbn. by destruct (exec p s) as [[segs rest]|].
  - injection H as Hc Hx. cbn [lit_ci map app]. fold (lit_ci lit).
    rewrite exec_one_accept.
    + rewrite (IH x Hx), after_after. done.
    + unfold is_ci, Str.eqb. by apply bool_decide_eq_true_2.
Qed.

Lemma exec_lit_ci_reject (lit : str) (p : regex) (s : str) :
  (∀ x t, s = x ++ t → ¬ ci_eq x lit) → exec (lit_ci lit ++ p) s = None.
Proof.
  revert s. induction lit as [|l lit IH]; intros s Hno.
  - exfalso. by apply (Hno [] s).
  - destruct s as [|c s]; [done|]. cbn [lit_ci map app]. fold (lit_ci lit).
    destruct (is_ci l c) eqn:Hc; [|by apply exec_one_reject].
    rewrite exec_one_accept by done. rewrite IH; [done|].
    intros x t -> Hx. apply (Hno (c :: x) t); [done|].
    unfold ci_eq. cbn. f_equal; [|done].
    unfold is_ci, Str.eqb in Hc. by apply bool_decide_eq_true_1 in Hc.
Qed.

Section quantified.
Variable ok : ascii → bool.
Variable k : str → found.

(** [s] does not begin with a character of the class. *)
Definition stops_here (s : str) : Prop :=
  match s with [] => True | c :: _ => ok c = false end.

Lemma star_run (a s : str) :
  Forall (λ c, ok c = true) a → stops_here s → is_Some (k s) →
  star ok k (a ++ s) = after [a] (k s).
Proof.
  intros Ha Hs [[segs rest] Hk]. induction Ha as [|c a Hc Ha IH].
  - cbn [app]. rewrite Hk. destruct s as [|d s]; cbn.
    + by rewrite Hk.
    + cbn in Hs. by rewrite Hs, Hk.
  - cbn [app star]. rewrite Hc, IH, Hk. done.
Qed.

Lemma plus_run (c : ascii) (a s : str) :
  Forall (λ c, ok c = true) (c :: a) → stops_here s → is_Some (k s) →
  plus ok k (c :: a ++ s) = after [c :: a] (k s).
Proof.
  intros Ha Hs Hk. apply Forall_cons in Ha as [Hc Ha].
  cbn [plus]. rewrite Hc, star_run by done.
  by destruct Hk as [[segs rest] ->].
Qed.

Lemma plus_reject (s : str) : stops_here s → plus ok k s = None.
Proof. destruct s as [|c s]; [done|]. cbn. by intros ->. Qed.

Lemma lazy_star_run (a s : str) :
  Forall (λ c, ok c = true) a →
  (∀ i, i < length a → k (drop i (a ++ s)) = None) →
  is_Some (k s) →
  lazy_star ok k (a ++ s) = after [a] (k s).
Proof.
  intros Ha Hno [[segs rest] Hk]. induction Ha as [|c a Hc Ha IH].
  - cbn [app]. destruct s as [|d s]; cbn; by rewrite Hk.
  - cbn [app lazy_star].
    assert (H0 : k (c :: a ++ s) = None) by (apply (Hno 0); cbn; lia).
    rewrite H0. cbn [opened orelse]. rewrite Hc, IH.
    + by rewrite Hk.
    + intros i Hi. apply (Hno (S i)). cbn. lia.
Qed.
End quantified.

(** Scanning. *)

Lemma sub_from_skip (p : regex) (repl x s : str) :
  Re.sub_from p repl (length x) (x ++ s) = Re.sub_from p repl 0 s.
Proof. induction x as [|c x IH]; [by destruct s|done]. Qed.

Lemma sub_pass (p : regex) (repl : str) (c : ascii) (s : str) :
  exec p (c :: s) = None → sub p repl (c :: s) = c :: sub p repl s.
Proof. intros H. unfold sub. cbn. unfold match_length. by rewrite H. Qed.

Lemma sub_prefix (p : regex) (repl a s : str) :
  (∀ i, i < length a → exec p (drop i (a ++ s)) = None) →
  sub p repl (a ++ s) = a ++ sub p repl s.
Proof.
  induction a as [|c a IH]; intros Hno; [done|].
  cbn [app]. rewrite sub_pass by (apply (Hno 0); cbn; lia).
  f_equal. apply IH. intros i Hi. apply (Hno (S i)). cbn. lia.
Qed.

Lemma sub_match (p : regex) (repl m s : str) (segs : list str) :
  m ≠ [] → exec p (m ++ s) = Some (segs, s) → concat segs = m →
  sub p repl (m ++ s) = repl ++ sub p repl s.
Proof.
  intros Hm Hexec Hsegs. destruct m as [|c m]; [done|].
  unfold sub. cbn [app sub_from]. unfold match_length.
  change (c :: m ++ s) with ((c :: m) ++ s). rewrite Hexec, Hsegs. cbn [length].
  f_equal. apply sub_from_skip.
Qed.



End matcher.

(** ** The plain text of a document *)

Section plain_text.
Import Processor.

(** Blank or not a whitespace character: what a normalised text is
    made of. *)
Definition plain_char (c : ascii) : Prop :=
  c = " "%char ∨ Str.is_space c = false.

Lemma star_total (ok : ascii → bool) (k : str → Re.found) (s : str) :
  (∀ t, k t = Some ([], t)) →
  ∃ seg rest, Re.star ok k s = Some ([seg], rest).
Proof.
  intros Hk. induction s as [|c s (seg & rest & IH)]; cbn [Re.star].
  - rewrite Hk. by eexists _, _.
  - destruct (ok c); [|rewrite Hk; by eexists _, _].
    rewrite IH. cbn. by eexists _, _.
Qed.

Lemma spaces_match (c : ascii) (s : str) :
  (Str.is_space c = false ∧ Re.match_length spaces_re (c :: s) = None)
  ∨ (Str.is_space c = true
     ∧ ∃ n, Re.match_length spaces_re (c :: s) = Some (S n)).
Proof.
  unfold Re.match_length, spaces_re.
  cbn [Re.exec Re.how Re.accepts Re.plus].
  destruct (Str.is_space c); [right|by left]. split; [done|].
  destruct (star_total Str.is_space (λ t, Some ([], t)) s) as (seg & rest & ->);
    [done|]. cbn. by eexists.
Qed.

Lemma sub_spaces_plain (skip : nat) (s : str) :
  Forall plain_char (Re.sub_from spaces_re " " skip s).
Proof.
  revert skip. induction s as [|c s IH]; intros skip; cbn [Re.sub_from].
  - cbn. constructor.
  - destruct skip as [|n]; [|apply IH].
    destruct (spaces_match c s) as [[Hc ->]|[Hc [n ->]]].
    + constructor; [by right|apply IH].
    + change (str_of " ") with [" "%char]. cbn [app].
      constructor; [by left|apply IH].
Qed.

Lemma lstrip_suffix (s : str) : ∃ a, s = a ++ Str.lstrip s.
Proof.
  induction s as [|c s (a & IH)]; cbn; [by exists []|].
  destruct (Str.is_space c); [|by exists []].
  exists (c :: a). cbn. by f_equal.
Qed.

Lemma Forall_lstrip (P : ascii → Prop) (s : str) :
  Forall P s → Forall P (Str.lstrip s).
Proof.
  intros H. destruct (lstrip_suffix s) as [a Ha]. rewrite Ha in H.
  by apply Forall_app in H as [_ H].
Qed.

Lemma Forall_strip (P : ascii → Prop) (s : str) :
  Forall P s → Forall P (Str.strip s).
Proof.
  intros H. unfold Str.strip.
  by apply Forall_reverse, Forall_lstrip, Forall_reverse, Forall_lstrip.
Qed.

Lemma plain_text_plain (markup : str) : Forall plain_char (plain_text markup).
Proof. unfold plain_text. apply Forall_strip, sub_spaces_plain. Qed.

Lemma plain_char_not_nl (c : ascii) : plain_char c → c ≠ nl.
Proof.
  intros [Hc|Hc] Hn; subst c; [by vm_compute in Hn|by vm_compute in Hc].
Qed.

Lemma split_sep_no_nl (cur s : str) :
  Forall (λ c, c ≠ nl) s →
  Str.split_sep_from [nl; nl] 0 cur s = [reverse cur ++ s].
Proof.
  intros H. revert cur. induction H as [|c s Hc Hs IH]; intros cur.
  - cbn. by rewrite app_nil_r.
  - cbn [Str.split_sep_from Str.startswith]. unfold Str.eqb at 1.
    rewrite bool_decide_eq_false_2 by done. cbn [andb].
    rewrite IH, reverse_cons, <- app_assoc. done.
Qed.

(** Whatever the document, its text is one block for
    [get_statistics]: there is no line break left in it. *)
Lemma paragraph_count_le_1 (html : str) :
  paragraph_count (get_statistics (strip_html html).1.1) ≤ 1.
Proof.
  unfold strip_html, get_statistics. cbn [fst paragraph_count].
  unfold Str.split_sep. rewrite split_sep_no_nl.
  - cbn [reverse app]. rewrite filter_cons, filter_nil.
    destruct (decide _); cbn; lia.
  - eapply Forall_impl; [apply plain_text_plain|]. apply plain_char_not_nl.
Qed.

(** The count as the specification words it: the non-blank blocks
    between double line breaks of the text that still has its line
    breaks, that is, before white space is collapsed. *)
Definition paragraphs_with_line_breaks (html : str) : nat :=
  length (filter (λ p, Str.truthy (Str.strip p) = true)
            (Str.split_sep (Re.sub tag_re " " (remove_blocks html)) [nl; nl])).

(** Two paragraphs, a blank line between them. *)
Definition two_paragraphs : str :=
  str_of "<p>one</p>" ++ [nl; nl] ++ str_of "<p>two</p>".

(** C2.  [get_statistics] splits at double line breaks, but it is given
    the text [strip_html] returns, in which every run of white space
    has become one space: whatever the document, [paragraph_count] is
    at most 1.  On [two_paragraphs] it is 1, where the text with its
    line breaks has 2 blocks. *)
Theorem paragraph_count_collapsed :
  (∀ html : str, paragraph_count (get_statistics (strip_html html).1.1) ≤ 1)
  ∧ (strip_html two_paragraphs).1.1 = str_of "one two"
  ∧ paragraph_count (get_statistics (strip_html two_paragraphs).1.1) = 1
  ∧ paragraphs_with_line_breaks two_paragraphs = 2.
Proof.
  split_and!; [apply paragraph_count_le_1|by vm_compute..].
Qed.
End plain_text.

(** ** Script and style blocks *)

Section blocks.
Import Processor.

Lemma concat_singletons (x : str) : concat ((λ c, [c]) <$> x) = x.
Proof. induction x as [|c x IH]; cbn; [done|]. by rewrite IH. Qed.

(** An occurrence of [lit], in any letter case, starts in the first
    [n] positions of [s]. *)
Definition ci_occurs_before (lit : str) (n : nat) (s : str) : Prop :=
  ∃ i x t, i < n ∧ drop i s = x ++ t ∧ ci_eq x lit.

Lemma no_occurrence_rejects (lit a close rest : str) (p : Re.regex) (i : nat) :
  ¬ ci_occurs_before lit (length a) (a ++ close) →
  length close = length lit → i < length a →
  Re.exec (Re.lit_ci lit ++ p) (drop i (a ++ close ++ rest)) = None.
Proof.
  intros Hno Hlen Hi. apply exec_lit_ci_reject. intros x t Hdrop Hx.
  apply Hno. exists i, x.
  rewrite app_assoc, drop_app_le in Hdrop by (rewrite length_app; lia).
  assert (length x ≤ length (drop i (a ++ close))) as Hle.
  { rewrite (ci_eq_length _ _ Hx), length_drop, length_app. lia. }
  exists (drop (length x) (drop i (a ++ close))). split_and!; [done| |done].
  rewrite <- (take_drop (length x) (drop i (a ++ close))) at 1. f_equal.
  apply (f_equal (take (length x))) in Hdrop.
  rewrite take_app_le, take_app_length in Hdrop by done. done.
Qed.

(** The tail of the two block patterns, after the tag name: the rest
    of the opening tag, the content, the closing tag. *)
Definition block_tail (close : str) : Re.regex :=
  [Re.Atom (Re.none_of ">") Re.Star; Re.Atom (Re.chr ">"%char) Re.One;
   Re.Atom Re.any Re.LazyStar] ++ Re.lit_ci close.

Lemma block_tail_match (close_lit attrs body close post : str) :
  ">"%char ∉ attrs → ci_eq close close_lit →
  ¬ ci_occurs_before close_lit (length body) (body ++ close) →
  Re.exec (block_tail close_lit)
    (attrs ++ str_of ">" ++ body ++ close ++ post)
  = Some ([attrs; str_of ">"; body] ++ ((λ c, [c]) <$> close), post).
Proof.
  intros Hattrs Hclose Hbody. unfold block_tail.
  cbn [app Re.exec Re.how Re.accepts].
  assert (Hk3 : ∀ s, Re.exec (Re.lit_ci close_lit) (close ++ s)
                     = Some ((λ c, [c]) <$> close, s)).
  { intros s. rewrite <- (app_nil_r (Re.lit_ci close_lit)).
    rewrite exec_lit_ci by done. cbn. by rewrite app_nil_r. }
  assert (Hk2 : Re.lazy_star Re.any (Re.exec (Re.lit_ci close_lit))
                  (body ++ close ++ post)
                = Some (body :: ((λ c, [c]) <$> close), post)).
  { rewrite lazy_star_run.
    - by rewrite Hk3.
    - by apply Forall_true.
    - intros i Hi. rewrite <- (app_nil_r (Re.lit_ci close_lit)).
      apply no_occurrence_rejects; [done|by apply ci_eq_length|done].
    - rewrite Hk3. by eexists. }
  change (str_of ">") with [">"%char]. cbn [app].
  rewrite star_run.
  - cbn [Re.one]. unfold Re.chr at 1, Str.eqb.
    rewrite bool_decide_eq_true_2 by done. rewrite Hk2. done.
  - apply Forall_forall. intros c Hc. unfold Re.none_of. cbn.
    unfold Str.eqb. rewrite bool_decide_eq_false_2; [done|].
    intros ->. done.
  - done.
  - cbn [Re.one]. unfold Re.chr at 1, Str.eqb.
    rewrite bool_decide_eq_true_2 by done. rewrite Hk2. by eexists.
Qed.

Lemma script_re_eq : script_re = Re.lit_ci "<script" ++ block_tail "</script>".
Proof. done. Qed.

Lemma style_re_eq : style_re = Re.lit_ci "<style" ++ block_tail "</style>".
Proof. done. Qed.

(** A whole block is one match of the pattern. *)
Lemma block_match (name close_lit opening attrs body close post : str) :
  ci_eq opening name → ">"%char ∉ attrs → ci_eq close close_lit →
  ¬ ci_occurs_before close_lit (length body) (body ++ close) →
  ∃ segs,
    Re.exec (Re.lit_ci name ++ block_tail close_lit)
      ((opening ++ attrs ++ str_of ">" ++ body ++ close) ++ post)
    = Some (segs, post)
    ∧ concat segs = opening ++ attrs ++ str_of ">" ++ body ++ close.
Proof.
  intros Hopen Hattrs Hclose Hbody. eexists.
  rewrite <- !app_assoc. rewrite exec_lit_ci by done.
  rewrite block_tail_match by done. cbn [after]. split; [done|].
  rewrite concat_app, concat_singletons, concat_app, concat_singletons.
  cbn [concat]. by rewrite app_nil_r, <- !app_assoc.
Qed.
End blocks.

Section block_removal.
Import Processor.

(** [s] begins with [lit], in any letter case. *)
Fixpoint ci_startswith (lit s : str) : bool :=
  match lit, s with
  | [], _ => true
  | l :: lit', c :: s' => Str.eqb (Str.lower c) (Str.lower l) && ci_startswith lit' s'
  | _ :: _, [] => false
  end.

(** [lit], in any letter case, occurs in [s] from one of the first [n]
    positions. *)
Fixpoint occurs_before (lit : str) (n : nat) (s : str) : bool :=
  match n with
  | O => false
  | S n' =>
      ci_startswith lit s
      || match s with [] => false | _ :: s' => occurs_before lit n' s' end
  end.

Lemma ci_startswith_spec (lit s : str) :
  ci_startswith lit s = true ↔ ∃ x t, s = x ++ t ∧ ci_eq x lit.
Proof.
  revert s. induction lit as [|l lit IH]; intros s; cbn.
  - split; [by exists [], s|done].
  - destruct s as [|c s].
    + split; [done|]. intros ([|? ?] & t & ? & Hx); done.
    + rewrite andb_true_iff, IH. unfold Str.eqb. rewrite bool_decide_eq_true.
      split.
      * intros (Hc & x & t & -> & Hx). exists (c :: x), t. split; [done|].
        unfold ci_eq in *. cbn. by rewrite Hc, Hx.
      * intros ([|c' x] & t & Hs & Hx); [done|].
        injection Hs as <- ->. injection Hx as Hc Hx. eauto.
Qed.

Lemma occurs_before_spec (lit : str) (n : nat) (s : str) :
  occurs_before lit n s = false → ¬ ci_occurs_before lit n s.
Proof.
  revert s. induction n as [|n IH]; intros s H (i & x & t & Hi & Hd & Hx); [lia|].
  cbn in H. apply orb_false_iff in H as [H1 H2]. destruct i as [|i].
  - rewrite drop_0 in Hd.
    assert (ci_startswith lit s = true) by (apply ci_startswith_spec; eauto).
    congruence.
  - destruct s as [|c s].
    + rewrite drop_nil in Hd. destruct x; [|done].
      assert (ci_startswith lit [] = true) by (apply ci_startswith_spec; by exists [], []).
      congruence.
    + apply (IH s H2). exists i, x, t. split_and!; [lia|done..].
Qed.

(** *** Where a tag can open *)

(** [s] agrees with [lit], in any letter case, as far as both go: an
    occurrence of [lit] begins with [s], or [s] with one. *)
Fixpoint may_start (lit s : str) : bool :=
  match lit, s with
  | l :: lit', c :: s' =>
      Str.eqb (Str.lower c) (Str.lower l) && may_start lit' s'
  | _, _ => true
  end.

(** An occurrence of [lit], in any letter case, can begin inside [s],
    whatever follows [s]. *)
Fixpoint may_open (lit s : str) : bool :=
  match s with
  | [] => false
  | _ :: s' => may_start lit s || may_open lit s'
  end.

(** No script tag and no style tag opens in [s]. *)
Definition opens_no_block (s : str) : bool :=
  negb (may_open "<script" s) && negb (may_open "<style" s).

Lemma may_start_occurs (lit s rest x t : str) :
  s ++ rest = x ++ t → ci_eq x lit → may_start lit s = true.
Proof.
  revert s x. induction lit as [|l lit IH]; intros s x H Hx; [by destruct s|].
  destruct x as [|c x]; [done|]. destruct s as [|c' s]; [done|].
  injection H as -> H. injection Hx as Hc Hx. cbn [may_start].
  unfold Str.eqb. rewrite bool_decide_eq_true_2 by done. by apply (IH s x).
Qed.

Lemma may_open_occurs (lit a rest x t : str) (i : nat) :
  i < length a → drop i (a ++ rest) = x ++ t → ci_eq x lit →
  may_open lit a = true.
Proof.
  revert i. induction a as [|c a IH]; intros i Hi Hd Hx; [cbn in Hi; lia|].
  cbn [may_open]. apply orb_true_iff. destruct i as [|i].
  - left. by apply (may_start_occurs lit (c :: a) rest x t).
  - right. apply (IH i); [cbn in Hi; lia|done..].
Qed.

Lemma may_start_app (lit a b : str) :
  may_start lit a = false → may_start lit (a ++ b) = false.
Proof.
  revert a. induction lit as [|l lit IH]; intros a H; [by destruct a|].
  destruct a as [|c a]; [done|]. cbn [app may_start] in *.
  destruct (Str.eqb (Str.lower c) (Str.lower l)); [|done]. by apply IH.
Qed.

Lemma may_open_app (lit a b : str) :
  may_open lit a = false → may_open lit b = false →
  may_open lit (a ++ b) = false.
Proof.
  intros Ha Hb. induction a as [|c a IH]; [done|].
  cbn [may_open] in Ha. apply orb_false_iff in Ha as [H1 H2].
  cbn [app may_open]. change (c :: a ++ b) with ((c :: a) ++ b).
  by rewrite may_start_app, IH.
Qed.

Lemma opens_no_block_app (a b : str) :
  opens_no_block a = true → opens_no_block b = true →
  opens_no_block (a ++ b) = true.
Proof.
  unfold opens_no_block. rewrite !andb_true_iff, !negb_true_iff.
  intros [? ?] [? ?]. by rewrite !may_open_app.
Qed.

(** A substitution passes over a text in which its pattern cannot
    begin. *)
Lemma sub_no_opening (lit : str) (p : Re.regex) (repl a s : str) :
  may_open lit a = false →
  Re.sub (Re.lit_ci lit ++ p) repl (a ++ s)
  = a ++ Re.sub (Re.lit_ci lit ++ p) repl s.
Proof.
  intros Ha. apply sub_prefix. intros i Hi.
  apply exec_lit_ci_reject. intros x t Hd Hx.
  by rewrite (may_open_occurs lit a s x t i) in Ha.
Qed.

(** *** Blocks *)

(** A block as the patterns read it: the opening tag name, what
    follows it up to the first [>], the content, and the closing
    tag. *)
Record block := Block {
  b_open : str;
  b_attrs : str;
  b_body : str;
  b_close : str
}.

Definition block_text (b : block) : str :=
  b_open b ++ b_attrs b ++ str_of ">" ++ b_body b ++ b_close b.

(** [b] opens with [name] and closes with [closing], in any letter
    case, and [closing] does not occur in it earlier. *)
Definition delimited (name closing : str) (b : block) : Prop :=
  ci_eq (b_open b) name ∧ (">"%char ∉ b_attrs b) ∧ ci_eq (b_close b) closing
  ∧ occurs_before closing (length (b_body b)) (b_body b ++ b_close b) = false.

Definition script_block (b : block) : Prop :=
  delimited "<script" "</script>" b.

(** A style block in which no script tag opens. *)
Definition style_block (b : block) : Prop :=
  delimited "<style" "</style>" b ∧ may_open "<script" (block_text b) = false.

(** A page: texts with a block after each, and a last text. *)
Fixpoint page (parts : list (str * block)) (last : str) : str :=
  match parts with
  | [] => last
  | (pre, b) :: parts' => pre ++ block_text b ++ page parts' last
  end.

Definition part_ok (part : str * block) : Prop :=
  opens_no_block (part.1) = true
  ∧ (script_block (part.2) ∨ style_block (part.2)).

Lemma sub_block (name closing : str) (b : block) (pre post : str) :
  may_open name pre = false → delimited name closing b →
  Re.sub (Re.lit_ci name ++ block_tail closing) "" (pre ++ block_text b ++ post)
  = pre ++ Re.sub (Re.lit_ci name ++ block_tail closing) "" post.
Proof.
  intros Hpre (Hopen & Hattrs & Hclose & Hbody).
  rewrite sub_no_opening by done. f_equal.
  destruct (block_match name closing (b_open b) (b_attrs b) (b_body b)
              (b_close b) post)
    as (segs & Hexec & Hsegs); [done..|by apply occurs_before_spec|].
  rewrite (sub_match _ _ (block_text b) post segs); [done| |done..].
  unfold block_text. intros H. apply (f_equal length) in H.
  rewrite !length_app in H. cbn in H. lia.
Qed.

Lemma remove_blocks_text (pre post : str) :
  opens_no_block pre = true →
  remove_blocks (pre ++ post) = pre ++ remove_blocks post.
Proof.
  intros [Hs Ht]%andb_true_iff. apply negb_true_iff in Hs, Ht.
  unfold remove_blocks. rewrite script_re_eq, style_re_eq.
  by rewrite !sub_no_opening.
Qed.

Lemma remove_blocks_script (pre : str) (b : block) (post : str) :
  opens_no_block pre = true → script_block b →
  remove_blocks (pre ++ block_text b ++ post) = pre ++ remove_blocks post.
Proof.
  intros [Hs Ht]%andb_true_iff Hb. apply negb_true_iff in Hs, Ht.
  unfold remove_blocks. rewrite script_re_eq, style_re_eq.
  rewrite (sub_block "<script" "</script>") by done.
  by rewrite sub_no_opening.
Qed.

Lemma remove_blocks_style (pre : str) (b : block) (post : str) :
  opens_no_block pre = true → style_block b →
  remove_blocks (pre ++ block_text b ++ post) = pre ++ remove_blocks post.
Proof.
  intros [Hs Ht]%andb_true_iff [Hb Hin]. apply negb_true_iff in Hs, Ht.
  unfold remove_blocks. rewrite script_re_eq, style_re_eq.
  rewrite (app_assoc pre), sub_no_opening by (by apply may_open_app).
  rewrite <- (app_assoc pre). by apply (sub_block "<style" "</style>").
Qed.

Lemma remove_blocks_part (part : str * block) (post : str) :
  part_ok part →
  remove_blocks ((part.1) ++ block_text (part.2) ++ post)
  = (part.1) ++ remove_blocks post.
Proof.
  intros [Hpre [Hb|Hb]];
    [by apply remove_blocks_script|by apply remove_blocks_style].
Qed.

Lemma remove_blocks_page (parts : list (str * block)) (last : str) :
  Forall part_ok parts →
  remove_blocks (page parts last) = concat (parts.*1) ++ remove_blocks last.
Proof.
  induction 1 as [|[pre b] parts Hpart Hparts IH]; [done|].
  cbn [page fmap list_fmap concat fst].
  rewrite (remove_blocks_part (pre, b)) by done.
  by rewrite IH, app_assoc.
Qed.

Lemma opens_no_block_texts (parts : list (str * block)) :
  Forall part_ok parts → opens_no_block (concat (parts.*1)) = true.
Proof.
  induction 1 as [|[pre b] parts [Hpre _] Hparts IH]; [done|].
  by apply opens_no_block_app.
Qed.

(** The content of a style block, a link in it included, reaches the
    text and the links when a script tag opens in the block and closes
    after it: the script is removed first, and with it the end of the
    style block. *)
Definition leaking_block : block :=
  Block "<style" "" "href='u' <script>" "</style>".

(** C6, as stated for every input, fails: what [strip_html] returns can
    depend on the content of a style block.  From [leaking_block]
    followed by a closing script tag it returns the text [href='u']
    and the link [u]; from an empty style block in its place,
    nothing. *)
Lemma style_content_leaks :
  ¬ (∀ (pre : str) (b b' : block) (post : str),
       delimited "<style" "</style>" b → delimited "<style" "</style>" b' →
       strip_html (pre ++ block_text b ++ post)
       = strip_html (pre ++ block_text b' ++ post)).
Proof.
  intros H.
  assert (Hleak : delimited "<style" "</style>" leaking_block).
  { split_and!; [by vm_compute| |by vm_compute..].
    intros Hin. by inversion Hin. }
  assert (Hempty : delimited "<style" "</style>"
                     (Block "<style" "" [] "</style>")).
  { split_and!; [by vm_compute| |by vm_compute..].
    intros Hin. by inversion Hin. }
  specialize (H [] leaking_block (Block "<style" "" [] "</style>")
                (str_of "</script>") Hleak Hempty).
  vm_compute in H. discriminate H.
Qed.

(** C6.  For a script block or a style block that follows a text in
    which no such tag opens, [strip_html] returns what it returns for
    the input without the block: nothing of the block, in any letter
    case, with any attributes and with line breaks in its content,
    reaches the text, the links or the images.  Block after block, a
    page loses all of them, and what is left is extracted as it
    stands.  A style block is one in which no script tag opens.  On the
    example of the specification the text is [Hello World !], with 3
    words and 1 sentence. *)
Theorem script_style_blocks_removed :
  (∀ (pre : str) (b : block) (post : str),
      opens_no_block pre = true → script_block b ∨ style_block b →
      strip_html (pre ++ block_text b ++ post) = strip_html (pre ++ post))
  ∧ (∀ (parts : list (str * block)) (last : str),
      Forall part_ok parts →
      remove_blocks (page parts last)
      = concat (parts.*1) ++ remove_blocks last
      ∧ strip_html (page parts last) = strip_html (concat (parts.*1) ++ last))
  ∧ (∀ s : str,
      opens_no_block s = true →
      strip_html s = (plain_text s, find_links s, find_images s))
  ∧ strip_html "<p>Hello <b>World</b>!</p><script>x=1</script>"
    = (str_of "Hello World !", [], [])
  ∧ word_count (get_statistics "Hello World !") = 3
  ∧ sentence_count (get_statistics "Hello World !") = 1.
Proof.
  assert (Hone : ∀ (pre : str) (b : block) (post : str),
            opens_no_block pre = true → script_block b ∨ style_block b →
            strip_html (pre ++ block_text b ++ post) = strip_html (pre ++ post)).
  { intros pre b post Hpre Hb. unfold strip_html.
    by rewrite (remove_blocks_part (pre, b)), remove_blocks_text. }
  split_and!; [done| | | |by vm_compute..].
  - intros parts last Hparts. split; [by apply remove_blocks_page|].
    unfold strip_html.
    rewrite remove_blocks_page, remove_blocks_text; [done| |done].
    by apply opens_no_block_texts.
  - intros s Hs. unfold strip_html.
    by rewrite <- (app_nil_r s), remove_blocks_text, !app_nil_r.
  - change (str_of "<p>Hello <b>World</b>!</p><script>x=1</script>")
      with (str_of "<p>Hello <b>World</b>!</p>"
            ++ block_text (Block "<script" "" "x=1" "</script>") ++ []).
    rewrite Hone; [by vm_compute..|]. left.
    split_and!; [by vm_compute| |by vm_compute..].
    intros Hin. by inversion Hin.
Qed.

(** A page with tags, then a script block in capitals, with an
    attribute, a comparison, a line break and a link in its content,
    then a style block, then a link. *)
Definition blocks_sample : list (str * block) :=
  [(str_of "<p>Hi <b>you</b></p>",
    Block "<SCRIPT" " src='a.js'"
      (str_of "if (a<b) go('x');" ++ [nl] ++ str_of "href='u'") "</Script>");
   (str_of "<i>!</i>", Block "<style" "" "p { color: red }" "</STYLE>")].

Lemma script_style_blocks_removed_witness :
  strip_html (page blocks_sample "<a href='v'>link</a>")
  = (str_of "Hi you ! link", [str_of "v"], []).
Proof.
  etrans; [|by vm_compute].
  apply (proj1 (proj2 script_style_blocks_removed) blocks_sample
           (str_of "<a href='v'>link</a>")).
  unfold blocks_sample. apply Forall_cons. split.
  - unfold part_ok, script_block, delimited.
    cbn [fst snd b_open b_attrs b_body b_close].
    split; [by vm_compute|left]. split_and!; [by vm_compute| |by vm_compute..].
    intros Hin. cbv [str_of String.list_ascii_of_string] in Hin.
    repeat (apply elem_of_cons in Hin as [Hin|Hin]; [discriminate Hin|]).
    by apply elem_of_nil in Hin.
  - apply Forall_cons. split; [|by apply Forall_nil].
    unfold part_ok, style_block, delimited.
    cbn [fst snd b_open b_attrs b_body b_close].
    split; [by vm_compute|right]. split_and!; [by vm_compute| |by vm_compute..].
    intros Hin. by inversion Hin.
Defined.
End block_removal.

(** ** Links and images *)

Section attributes.
Import Processor.

(** Nothing, or one quote character. *)
Definition opening_quote (q : str) : bool :=
  match q with
  | [] => true
  | [c] => Re.one_of quotes c
  | _ => false
  end.

(** A value as the patterns take it: at least one character, none of
    them a quote, a space or [>]. *)
Definition is_value (v : str) : bool :=
  Str.truthy v && forallb (Re.none_of stops) v.

(** The value ends where [s] begins: at the end of the input, or at a
    quote, a space or [>]. *)
Definition ends_value (s : str) : bool :=
  match s with
  | [] => true
  | c :: _ => Re.one_of stops c
  end.







End attributes.

(** * Further properties *)

(** ** The Analyzer on a corpus it can read *)

Section analyzer_total.
Import Analyzer.

(** X1.  With the marker there and a text in every listed file, a run
    of the Analyzer finishes: none of its divisions, lookups and
    subscripts raises, whatever the texts, the empty corpus and the
    corpus without a word included.  The run writes the report and
    changes nothing else. *)
Theorem analyzer_finishes (now : str) (w : shared) :
  is_Some (process_complete w) →
  (∀ f, f ∈ file_list w → is_Some (text_of w f)) →
  ∃ report,
    main now w = (Finished, with_report w report)
    ∧ Json.field "documents_processed" report
      = Some (Json.int (length (file_list w)))
    ∧ raw (with_report w report) = raw w
    ∧ processed (with_report w report) = processed w
    ∧ process_complete (with_report w report) = process_complete w.
Proof.
  intros Hm Hall. eexists. split; [by apply main_finishes|]. done.
Qed.

Lemma analyzer_finishes_witness :
  ∃ report,
    main "now" two_docs = (Finished, with_report two_docs report)
    ∧ Json.field "documents_processed" report = Some (Json.int 2).
Proof.
  destruct (analyzer_finishes "now" two_docs) as (report & Hrun & Hn & _).
  - by eexists.
  - intros f Hf. vm_compute in Hf.
    apply elem_of_cons in Hf as [->|Hf]; [vm_compute; by eexists|].
    apply elem_of_cons in Hf as [->|Hf]; [vm_compute; by eexists|].
    by apply elem_of_nil in Hf.
  - exists report. split; [done|]. rewrite Hn. by vm_compute.
Defined.

(** The error a file raises when it is loaded. *)
Definition load_error (file : Json.file) : option Py.exn :=
  match file with
  | Json.Malformed => Some Py.JSONDecodeError
  | Json.Undecodable => Some Py.UnicodeDecodeError
  | Json.Valid (Json.Object kv) =>
      match Json.assoc "text" kv with
      | None => Some Py.KeyError
      | Some (Json.String _) => None
      | Some _ => Some Py.AttributeError
      end
  | Json.Valid _ => Some Py.TypeError
  end.

Lemma load_one_error (w : shared) (st : loaded) (f : str) (file : Json.file)
    (e : Py.exn) :
  processed w !! f = Some file → load_error file = Some e →
  load_one w st f = Py.Raise e.
Proof.
  intros Hf He. unfold load_one, json_load. rewrite Hf.
  destruct file as [v| |]; [|by injection He as <-..].
  destruct v as [| | | |l|kv]; cbn in *; try (by injection He as <-).
  destruct (Json.assoc _ kv) as [[| | |s| |]|]; cbn in *;
    first [done|by injection He as <-].
Qed.

Lemma load_loop_first_error (w : shared) (good rest : list str) (f : str)
    (file : Json.file) (e : Py.exn) (st : loaded) :
  (∀ g, g ∈ good → is_Some (text_of w g)) →
  processed w !! f = Some file → load_error file = Some e →
  Py.for_loop (load_one w) (good ++ f :: rest) st = Py.Raise e.
Proof.
  revert st. induction good as [|g good IH]; intros st Hgood Hf He.
  - cbn. by rewrite (load_one_error w st f file e).
  - destruct (Hgood g) as [t Ht]; [by left|].
    cbn. rewrite (load_one_text _ _ _ _ Ht). cbn.
    apply IH; [|done..]. intros g' Hg'. apply Hgood. by right.
Qed.

(** X2.  A run fails with the error of the first listed file, in the
    order of the names, that gives no text: [UnicodeDecodeError] for a
    file that is not UTF-8, [JSONDecodeError] for a text that is not
    JSON, [TypeError] for a value that is not an object,
    [KeyError] for an object without [text], [AttributeError] for a
    [text] that is not a string.  The files after it are not read: they
    may be anything. *)
Theorem analyzer_first_error (now : str) (w : shared) (good rest : list str)
    (f : str) (file : Json.file) (e : Py.exn) :
  is_Some (process_complete w) →
  file_list w = good ++ f :: rest →
  (∀ g, g ∈ good → is_Some (text_of w g)) →
  processed w !! f = Some file → load_error file = Some e →
  main now w = (Failed e, w).
Proof.
  intros [m Hm] Hfiles Hgood Hf He. unfold main, compute.
  rewrite Hm, Hfiles, (load_loop_first_error w good rest f file e); done.
Qed.

(** A good document, then a list where a record should be, then a
    file that is not JSON. *)
Definition bad_from_second : shared :=
  Shared ∅ true
    (list_to_map [(str_of "a.json", text_file "cat dog");
                  (str_of "b.json", Json.Valid (Json.Array []));
                  (str_of "c.json", Json.Malformed)])
    (Some Json.Null) None.

Lemma analyzer_first_error_witness :
  main "now" bad_from_second = (Failed Py.TypeError, bad_from_second).
Proof.
  apply (analyzer_first_error "now" bad_from_second [str_of "a.json"]
           [str_of "c.json"] (str_of "b.json") (Json.Valid (Json.Array []))).
  - by eexists.
  - by vm_compute.
  - intros g ->%list_elem_of_singleton. vm_compute. by eexists.
  - by vm_compute.
  - reflexivity.
Defined.
End analyzer_total.

(** ** What the Analyzer reads *)

Section analyzer_inputs.
Import Analyzer.

Lemma for_loop_ext {A S} (f g : S → A → Py.result S) (l : list A) (s : S) :
  (∀ s x, x ∈ l → f s x = g s x) → Py.for_loop f l s = Py.for_loop g l s.
Proof.
  revert s. induction l as [|x l IH]; intros s H; cbn; [done|].
  rewrite (H s x) by left. destruct (g s x) as [s'|e]; cbn; [|done].
  apply IH. intros s'' y Hy. apply H. by right.
Qed.

Lemma listing_ext {A} (suffix : str) (d d' : gmap str A) :
  (∀ f, Str.endswith f suffix = true → is_Some (d !! f) ↔ is_Some (d' !! f)) →
  listing suffix d = listing suffix d'.
Proof.
  intros H.
  assert (AntiSymm (=) Str.le) as Hanti by (intros a b; apply leb_antisym).
  apply (StronglySorted_unique Str.le); [apply Sorted_listing..|].
  apply NoDup_Permutation; [apply NoDup_listing..|].
  intros f. rewrite !elem_of_listing. naive_solver.
Qed.

(** X3.  The Analyzer looks at the files whose name ends with [.json]
    and at no other: two processed directories that hold the same such
    files give the same result, the same report or the same error,
    whatever else they hold. *)
Theorem analyzer_reads_json_only (now : str) (w w' : shared) :
  (∀ f, Str.endswith f ".json" = true → processed w !! f = processed w' !! f) →
  compute now w = compute now w'.
Proof.
  intros H. unfold compute.
  assert (Hfiles : file_list w = file_list w').
  { apply (listing_ext ".json"). intros f Hf. by rewrite (H f Hf). }
  rewrite <- Hfiles. rewrite (for_loop_ext (load_one w) (load_one w')); [done|].
  intros st f Hf. apply (elem_of_listing ".json") in Hf as [_ Hf].
  unfold load_one, json_load. by rewrite (H f Hf).
Qed.

(** [two_docs] without its notes, and with a stray page. *)
Definition two_docs_and_page : shared :=
  Shared ∅ true
    (list_to_map [(str_of "b.json", text_file "dog bird");
                  (str_of "a.json", text_file "cat dog");
                  (str_of "index.html", Json.Malformed)])
    (Some Json.Null) None.

Lemma analyzer_reads_json_only_witness :
  compute "now" two_docs = compute "now" two_docs_and_page.
Proof.
  apply analyzer_reads_json_only. intros f Hf.
  destruct (decide (f = str_of "notes.txt")) as [->|H1]; [by vm_compute in Hf|].
  destruct (decide (f = str_of "index.html")) as [->|H2]; [by vm_compute in Hf|].
  unfold two_docs, two_docs_and_page. cbn [processed list_to_map foldr uncurry].
  destruct (decide (f = str_of "b.json")) as [->|H3];
    [by rewrite !lookup_insert_eq|].
  destruct (decide (f = str_of "a.json")) as [->|H4].
  { rewrite !(lookup_insert_ne _ (str_of "b.json")) by done.
    by rewrite !lookup_insert_eq. }
  rewrite !lookup_insert_ne by done. done.
Defined.
End analyzer_inputs.

(** ** Totals and frequencies *)

Section totals.
Import Analyzer.

Lemma table_length (ws : list str) :
  length (Counter.update [] ws) = size (list_to_set ws : gset str).
Proof.
  assert (Hnd : NoDup (Counter.update [] ws).*1)
    by (apply NoDup_update; constructor).
  rewrite <- (length_fmap fst), <- (size_list_to_set (C := gset str)) by done.
  f_equal. apply set_eq. intros x. rewrite !elem_of_list_to_set.
  rewrite elem_of_keys_update. rewrite elem_of_nil. naive_solver.
Qed.

(** X4.  In the report of a run that finishes, [documents_processed]
    is the number of listed files, [total_words] the number of token
    occurrences of the corpus, and [unique_words] the number of distinct
    tokens. *)
Theorem report_totals (now : str) (w w' : shared) :
  main now w = (Finished, w') →
  report_field "documents_processed" w' = Some (Json.int (length (file_list w)))
  ∧ report_field "total_words" w' = Some (Json.int (length (corpus_words w)))
  ∧ report_field "unique_words" w'
    = Some (Json.int (size (list_to_set (corpus_words w) : gset str))).
Proof.
  intros Hrun. destruct (main_finished now w w' Hrun) as [_ ->].
  split_and!; [done..|]. rewrite <- table_length. done.
Qed.

Lemma report_totals_witness :
  report_field "unique_words"
    (with_report two_docs (report_of "now" (file_list two_docs) (texts two_docs)))
  = Some (Json.int 3).
Proof.
  destruct (report_totals "now" two_docs
              (with_report two_docs
                 (report_of "now" (file_list two_docs) (texts two_docs))))
    as (_ & _ & H).
  - by vm_compute.
  - rewrite H. by vm_compute.
Defined.

Lemma sum_counts_sublist (ranked rest table : Counter.t) :
  ranked ++ rest ≡ₚ table →
  sum_list_with snd ranked ≤ sum_list (Counter.values table).
Proof.
  intros Hperm. unfold Counter.values. rewrite <- Hperm, fmap_app.
  rewrite sum_list_with_app.
  assert (∀ l : Counter.t, sum_list l.*2 = sum_list_with snd l) as ->
    by (intros l; induction l as [|[? ?] l IH]; cbn; [done|by rewrite IH]).
  lia.
Qed.

(** X5.  In [top_100_words] every entry has a count of at least 1 and
    at most the total number of token occurrences, so that its
    frequency is above 0 and at most 1; all the counts listed add up to
    at most that total. *)
Theorem top_words_frequencies (now : str) (w w' : shared) :
  main now w = (Finished, w') →
  let total_words := length (corpus_words w) in
  let ranked := Counter.most_common 100 (Counter.update [] (corpus_words w)) in
  report_field "top_100_words" w'
    = Some (Json.Array (word_value total_words <$> ranked))
  ∧ sum_list_with snd ranked ≤ total_words
  ∧ ∀ e, e ∈ ranked →
         1 ≤ e.2 ≤ total_words
         ∧ (0 < Z.of_nat e.2 # Pos.of_nat total_words)%Q
         ∧ (Z.of_nat e.2 # Pos.of_nat total_words <= 1)%Q.
Proof.
  intros Hrun total_words ranked.
  destruct (main_finished now w w' Hrun) as [_ ->].
  destruct (most_common_spec 100 (Counter.update [] (corpus_words w)))
    as (rest & _ & Hperm & _ & _). fold ranked in Hperm.
  assert (Hsum : sum_list_with snd ranked ≤ total_words).
  { etrans; [by apply (sum_counts_sublist ranked rest)|].
    rewrite sum_values_update. cbn. unfold total_words. lia. }
  split_and!; [done..|]. intros e He.
  destruct (most_common_top 100 (corpus_words w)) as (_ & _ & _ & H4 & _).
  destruct (H4 e He) as (_ & _ & Hpos).
  assert (e.2 ≤ total_words) as Hle.
  { etrans; [|exact Hsum]. by apply (sum_list_with_in e snd). }
  split_and!; [lia..| |].
  - unfold Qlt. cbn. lia.
  - apply quotient_bounds. lia.
Qed.

Lemma top_words_frequencies_witness :
  sum_list_with snd
    (Counter.most_common 100 (Counter.update [] (corpus_words two_docs))) ≤ 4.
Proof.
  destruct (top_words_frequencies "now" two_docs
              (with_report two_docs
                 (report_of "now" (file_list two_docs) (texts two_docs))))
    as (_ & H & _).
  - by vm_compute.
  - exact H.
Defined.
End totals.

(** ** The extremes of the similarity *)

Section jaccard_extremes.
Import Analyzer.

(** X6.  For two documents that are not both empty the similarity is 1
    exactly when they have the same set of tokens, and 0 exactly when
    they share no token. *)
Theorem jaccard_score_extremes (A B : list str) :
  ¬ (A = [] ∧ B = []) →
  ∃ q, jaccard_score A B = Py.Ok q
       ∧ ((q == 1)%Q ↔ token_set A = token_set B)
       ∧ ((q == 0)%Q ↔ token_set A ∩ token_set B = ∅).
Proof.
  intros Hne. destruct (jaccard_score_nonempty A B Hne) as [-> Hu].
  eexists. split; [done|].
  set (i := size (token_set A ∩ token_set B)) in *.
  set (u := size (token_set A ∪ token_set B)) in *.
  split.
  - unfold Qeq. cbn. rewrite Zpos_of_nat by done. split.
    + intros Hq. assert (i = u) as Hiu by lia.
      assert (token_set A ∩ token_set B = token_set A ∪ token_set B) as Heq.
      { apply set_subseteq_size_eq; [set_solver|]. fold i u. lia. }
      apply leibniz_equiv. set_solver.
    + intros Heq. unfold i, u. rewrite Heq.
      replace (token_set B ∩ token_set B) with (token_set B) by set_solver.
      replace (token_set B ∪ token_set B) with (token_set B) by set_solver.
      lia.
  - unfold Qeq. cbn. split.
    + intros Hq. assert (i = 0) as Hi by lia.
      apply leibniz_equiv. by apply size_empty_inv.
    + intros Heq. unfold i. rewrite Heq, size_empty. lia.
Qed.

Lemma jaccard_score_extremes_witness :
  ∃ q, jaccard_score [str_of "cat"; str_of "dog"] [str_of "dog"; str_of "cat"; str_of "dog"]
       = Py.Ok q
       ∧ (q == 1)%Q.
Proof.
  destruct (jaccard_score_extremes [str_of "cat"; str_of "dog"]
              [str_of "dog"; str_of "cat"; str_of "dog"])
    as (q & Hq & H1 & _).
  - by intros [? _].
  - exists q. split; [done|]. apply H1. by vm_compute.
Defined.
End jaccard_extremes.

(** ** n-grams of any width *)

Section ngrams_general.
Import Analyzer.

Lemma join_singleton (sep w : str) : Str.join sep [w] = w.
Proof. done. Qed.

(** X7.  [make_ngrams words n] has [len(words) + 1 - n] elements, and
    none when there are fewer than [n] words; its element [i] joins the
    [n] words from position [i] with single spaces.  For [n = 1] it is
    the list of the words. *)
Theorem make_ngrams_widths (words : list str) (n : nat) :
  length (make_ngrams words n) = length words + 1 - n
  ∧ (length words < n → make_ngrams words n = [])
  ∧ (∀ i, i + n ≤ length words →
          make_ngrams words n !! i
          = Some (Str.join " " (take n (drop i words))))
  ∧ make_ngrams words 1 = words.
Proof.
  split_and!.
  - unfold make_ngrams. rewrite length_map, length_seq. lia.
  - intros Hlt. unfold make_ngrams.
    replace (Z.to_nat _) with 0 by lia. done.
  - intros i Hi. unfold make_ngrams.
    rewrite list_lookup_fmap, lookup_seq_lt by lia. done.
  - unfold make_ngrams.
    replace (Z.to_nat _) with (length words) by lia.
    apply list_eq. intros i. rewrite list_lookup_fmap.
    destruct (decide (i < length words)) as [Hi|Hi].
    + rewrite lookup_seq_lt by done. cbn.
      destruct (lookup_lt_is_Some_2 words i Hi) as [x Hx].
      rewrite Hx, (drop_S _ _ _ Hx). done.
    + rewrite lookup_seq_ge, lookup_ge_None_2 by lia. done.
Qed.

Lemma make_ngrams_widths_witness :
  make_ngrams [str_of "a"; str_of "b"] 3 = [].
Proof.
  apply (proj1 (proj2 (make_ngrams_widths [str_of "a"; str_of "b"] 3))).
  cbn. lia.
Defined.
End ngrams_general.

(** ** Tokens *)

Section tokens.

Definition nonspace (c : ascii) : bool := negb (Str.is_space c).

(** A token: at least one character, none of them white space. *)
Definition is_token (t : str) : Prop :=
  t ≠ [] ∧ Forall (λ c, Str.is_space c = false) t.

Lemma split_go_spec (tok s : str) :
  Forall (λ c, Str.is_space c = false) tok →
  Forall is_token (Str.split_go tok s)
  ∧ concat (Str.split_go tok s) = reverse tok ++ filter (λ c, nonspace c = true) s.
Proof.
  revert tok. induction s as [|c s IH]; intros tok Htok.
  - cbn [Str.split_go]. destruct tok as [|d tok].
    + split; [constructor|done].
    + split.
      * constructor; [|constructor]. split.
        -- intros H. apply (f_equal length) in H.
           rewrite length_reverse in H. done.
        -- by apply Forall_reverse.
      * cbn. by rewrite !app_nil_r.
  - cbn [Str.split_go]. rewrite filter_cons.
    destruct (Str.is_space c) eqn:Hc.
    + rewrite decide_False by (unfold nonspace; by rewrite Hc).
      destruct (IH [] ltac:(constructor)) as [IH1 IH2].
      destruct tok as [|d tok]; [done|]. split.
      * constructor; [|done]. split.
        -- intros H. apply (f_equal length) in H.
           rewrite length_reverse in H. done.
        -- by apply Forall_reverse.
      * cbn [concat]. by rewrite IH2.
    + rewrite decide_True by (unfold nonspace; by rewrite Hc).
      destruct (IH (c :: tok)) as [IH1 IH2]; [by constructor|].
      split; [done|]. rewrite IH2, reverse_cons, <- app_assoc. done.
Qed.

Lemma split_tokens (s : str) : Forall is_token (Str.split s).
Proof. apply (split_go_spec [] s). constructor. Qed.

Lemma split_concat (s : str) :
  concat (Str.split s) = filter (λ c, nonspace c = true) s.
Proof. apply (split_go_spec [] s). constructor. Qed.

Lemma split_go_run (tok a s : str) :
  Forall (λ c, Str.is_space c = false) a →
  Str.split_go tok (a ++ s) = Str.split_go (reverse a ++ tok) s.
Proof.
  intros Ha. revert tok. induction Ha as [|c a Hc Ha IH]; intros tok; [done|].
  cbn [app Str.split_go]. rewrite Hc, IH, reverse_cons, <- app_assoc. done.
Qed.

Lemma split_token_then (t s : str) :
  is_token t → Str.split (t ++ str_of " " ++ s) = t :: Str.split s.
Proof.
  intros [Hne Ht]. unfold Str.split. rewrite split_go_run by done.
  rewrite app_nil_r. change (str_of " " ++ s) with (" "%char :: s).
  cbn [Str.split_go]. change (Str.is_space " ") with true. cbn.
  destruct (reverse t) as [|d r] eqn:Hr.
  - apply (f_equal length) in Hr. rewrite length_reverse in Hr.
    by destruct t.
  - by rewrite <- Hr, reverse_involutive.
Qed.

Lemma split_token (t : str) : is_token t → Str.split t = [t].
Proof.
  intros [Hne Ht]. unfold Str.split.
  rewrite <- (app_nil_r t) at 1. rewrite split_go_run by done.
  rewrite app_nil_r. cbn. destruct (reverse t) as [|d r] eqn:Hr.
  - apply (f_equal length) in Hr. rewrite length_reverse in Hr.
    by destruct t.
  - by rewrite <- Hr, reverse_involutive.
Qed.

(** X8.  Splitting undoes joining: a list of tokens joined by single
    spaces splits into these tokens again. *)
Theorem split_join (ts : list str) :
  Forall is_token ts → Str.split (Str.join " " ts) = ts.
Proof.
  induction 1 as [|t ts Ht Hts IH]; [done|].
  destruct ts as [|u ts].
  - cbn. by apply split_token.
  - change (Str.join " " (t :: u :: ts))
      with (t ++ str_of " " ++ Str.join " " (u :: ts)).
    by rewrite split_token_then, IH.
Qed.

Lemma split_join_witness :
  Str.split (Str.join " " [str_of "cat"; str_of "dog"])
  = [str_of "cat"; str_of "dog"].
Proof.
  apply split_join. repeat constructor; try done; by vm_compute.
Defined.
End tokens.

Section bigram_tokens.
Import Analyzer.

(** X9.  A bigram of a text splits into the two tokens it was made of:
    the tokens of the text at its position and at the next. *)
Theorem bigram_splits (text : str) (i : nat) (bg : str) :
  make_ngrams (Str.split text) 2 !! i = Some bg →
  ∃ a b, Str.split text !! i = Some a ∧ Str.split text !! (i + 1) = Some b
         ∧ Str.split bg = [a; b].
Proof.
  intros Hbg. destruct (make_ngrams_inv _ _ _ Hbg) as (a & b & Ha & Hb & ->).
  exists a, b. split_and!; [done..|].
  pose proof (split_tokens text) as Htok. rewrite Forall_forall in Htok.
  assert (is_token a) as Hta by (apply Htok, list_elem_of_lookup; eauto).
  assert (is_token b) as Htb by (apply Htok, list_elem_of_lookup; eauto).
  rewrite split_token_then by done. by rewrite split_token.
Qed.

Lemma bigram_splits_witness :
  ∃ a b, Str.split "the  cat sat" !! 1 = Some a
         ∧ Str.split "the  cat sat" !! (1 + 1) = Some b
         ∧ Str.split "cat sat" = [a; b].
Proof. apply (bigram_splits "the  cat sat" 1 "cat sat"). by vm_compute. Defined.
End bigram_tokens.

(** ** The statistics of a text *)

Section statistics.
Import Processor.

Lemma sum_lengths_concat (l : list str) :
  sum_list_with length l = length (concat l).
Proof.
  induction l as [|x l IH]; cbn; [done|]. by rewrite length_app, IH.
Qed.

Lemma token_length (t : str) : is_token t → 1 ≤ length t.
Proof. intros [Hne _]. destruct t; [done|cbn; lia]. Qed.

Lemma tokens_length (l : list str) :
  Forall is_token l → length l ≤ sum_list_with length l.
Proof.
  induction 1 as [|t l Ht Hl IH]; cbn; [done|].
  pose proof (token_length t Ht). lia.
Qed.

(** X10.  For every text, with [word_count] the number of its tokens:
    the lengths of the words add up to the number of characters of the
    text that are not white space, so that [avg_word_length] is that
    number over [word_count]; it is 0 when there is no word and at least
    1 otherwise; there is no word exactly when the text is white space
    only; [sentence_count] is the number of characters [.], [!] and
    [?]. *)
Theorem get_statistics_spec (text : str) :
  let st := get_statistics text in
  let letters := length (filter (λ c, nonspace c = true) text) in
  word_count st = length (Str.split text)
  ∧ sentence_count st = sentence_marks text
  ∧ (word_count st = 0 ↔ letters = 0)
  ∧ word_count st ≤ letters
  ∧ (avg_word_length st
     == if decide (word_count st = 0%nat) then 0
        else inject_Z (Z.of_nat letters) / inject_Z (Z.of_nat (word_count st)))%Q
  ∧ (word_count st ≠ 0 → (1 <= avg_word_length st)%Q).
Proof.
  intros st letters.
  assert (Hsum : sum_list_with length (Str.split text) = letters).
  { by rewrite sum_lengths_concat, split_concat. }
  pose proof (tokens_length _ (split_tokens text)) as Hle. rewrite Hsum in Hle.
  unfold st, get_statistics. cbn [word_count sentence_count avg_word_length].
  split_and!.
  - done.
  - change (str_of ".") with ["."%char]. change (str_of "!") with ["!"%char].
    change (str_of "?") with ["?"%char]. by rewrite !count_one_char.
  - split; [|lia]. intros H0. rewrite <- Hsum.
    destruct (Str.split text); [done|done].
  - done.
  - rewrite Hsum. destruct (decide _); [done|]. by apply quotient_Qdiv.
  - intros Hne. rewrite Hsum. destruct (decide _); [done|].
    unfold Qle. cbn. rewrite Zpos_of_nat by done. lia.
Qed.

Lemma get_statistics_spec_witness :
  (1 <= avg_word_length (get_statistics "Hello World !"))%Q.
Proof.
  destruct (get_statistics_spec "Hello World !") as (_ & _ & _ & _ & _ & H).
  apply H. by vm_compute.
Defined.
End statistics.

(** ** From the Processor to the Analyzer *)

Section pipeline.
Import ProcessorMain.

Lemma endswith_spec (s p : str) :
  Str.endswith s p = true ↔ ∃ a, s = a ++ p.
Proof.
  unfold Str.endswith. rewrite startswith_spec. split.
  - intros [t Ht]. exists (reverse t).
    apply (f_equal reverse) in Ht.
    by rewrite reverse_involutive, reverse_app, reverse_involutive in Ht.
  - intros [a ->]. exists (reverse a). by rewrite reverse_app.
Qed.

(** An occurrence of [.html] that begins before the suffix ends before
    it: the suffix begins with the only [.] of the pattern. *)
Lemma html_before_suffix (c : ascii) (a : str) :
  Str.startswith ".html" (c :: a ++ str_of ".html") = true → 4 ≤ length a.
Proof.
  intros H. destruct a as [|a1 [|a2 [|a3 [|a4 a]]]]; [| | | |cbn; lia].
  all: apply startswith_spec in H as [t Ht]; cbn in Ht; congruence.
Qed.

Lemma replace_keeps_suffix (a : str) (skip : nat) :
  skip ≤ length a →
  ∃ out, Str.replace_from ".html" ".json" skip (a ++ str_of ".html")
         = out ++ str_of ".json".
Proof.
  revert skip. induction a as [|c a IH]; intros skip Hskip.
  - replace skip with 0 by (cbn in Hskip; lia). by exists [].
  - destruct skip as [|n].
    + cbn [app Str.replace_from].
      destruct (Str.startswith ".html" (c :: a ++ str_of ".html")) eqn:Hs.
      * apply html_before_suffix in Hs.
        destruct (IH 4 Hs) as [out Hout]. exists (str_of ".json" ++ out).
        change (length (str_of ".html") - 1) with 4.
        by rewrite Hout, app_assoc.
      * destruct (IH 0) as [out Hout]; [lia|]. exists (c :: out).
        by rewrite Hout.
    + cbn [app Str.replace_from]. apply IH. cbn in Hskip. lia.
Qed.

(** X11.  The output name of a file whose name ends with [.html] ends
    with [.json], also when [.html] occurs in the name more than once:
    the Analyzer lists every artifact the Processor writes. *)
Theorem output_name_is_listed (file : str) :
  Str.endswith file ".html" = true →
  Str.endswith (output_name file) ".json" = true.
Proof.
  intros [a ->]%endswith_spec. unfold output_name, Str.replace.
  destruct (replace_keeps_suffix a 0) as [out ->]; [lia|].
  apply endswith_spec. by exists out.
Qed.

Lemma output_name_is_listed_witness :
  Str.endswith (output_name "a.html.html") ".json" = true.
Proof. apply output_name_is_listed. by vm_compute. Defined.

Lemma written_has_text (now : str) (w : shared) (g : str) :
  stored_text (written now w g)
  = Some (Processor.strip_html (default [] (raw w !! g))).1.1.
Proof.
  unfold written, result_of.
  by destruct (Processor.strip_html (default [] (raw w !! g))) as [[text links] images].
Qed.

(** X12.  When the Processor has finished, and the processed
    directory held nothing that the Analyzer cannot read, a run of the
    Analyzer on what it leaves finishes too.  Every document of the
    Processor is among the files the Analyzer lists, under its output
    name, and the text the Analyzer reads there is the text
    [strip_html] gave for a document with that output name. *)
Theorem processor_then_analyzer (now now' : str) (w w1 : shared) :
  main now w = (Finished, w1) →
  (∀ f file, processed w !! f = Some file → is_Some (stored_text file)) →
  (∃ w2, Analyzer.main now' w1 = (Finished, w2))
  ∧ ∀ f, f ∈ html_files w →
         output_name f ∈ Analyzer.file_list w1
         ∧ ∃ g content,
             g ∈ html_files w ∧ output_name g = output_name f
             ∧ raw w !! g = Some content
             ∧ text_of w1 (output_name f)
               = Some (Processor.strip_html content).1.1.
Proof.
  intros Hrun Hold. pose proof Hrun as Hrun'. unfold main in Hrun'.
  destruct (fetch_complete w); [|done].
  destruct (loop_spec now w (html_files w) (processed w) []) as (H1 & H2 & H3).
  destruct (foldl (step now w) (processed w, []) (html_files w))
    as [dir paths] eqn:Hloop.
  cbn [fst snd] in H1, H2, H3. injection Hrun' as <-.
  assert (Hdone : ∀ f, f ∈ html_files w →
            ∃ g, g ∈ html_files w ∧ output_name g = output_name f
                 ∧ text_of
                     (Shared (raw w) true dir
                        (Some (Json.Object
                           [(str_of "timestamp", Json.String now);
                            (str_of "processed_files",
                              Json.Array (Json.String <$> paths))]))
                        (final_report w)) (output_name f)
                   = Some (Processor.strip_html (default [] (raw w !! g))).1.1).
  { intros f Hf. destruct (H3 f Hf) as (g & Hg & Hgf & Hlook).
    exists g. split_and!; [done..|]. unfold text_of. cbn [processed].
    rewrite Hlook. exact (written_has_text now w g). }
  split.
  - eexists. apply main_finishes; [by eexists|].
    intros f Hf. apply (elem_of_listing ".json") in Hf as [[file Hfile] Hjson].
    cbn [processed] in Hfile. unfold text_of. cbn [processed]. rewrite Hfile.
    destruct (decide (f ∈ output_name <$> html_files w)) as [Hin|Hout].
    + apply list_elem_of_fmap in Hin as (f' & -> & Hf').
      destruct (H3 f' Hf') as (g & _ & _ & Hlook).
      rewrite Hlook in Hfile. injection Hfile as <-.
      change (is_Some (stored_text (written now w g))).
      rewrite (written_has_text now w g). by eexists.
    + rewrite H2 in Hfile.
      * exact (Hold f file Hfile).
      * intros f' Hf' <-. apply Hout, list_elem_of_fmap. by exists f'.
  - intros f Hf. destruct (Hdone f Hf) as (g & Hg & Hgf & Htext). split.
    + apply (elem_of_listing ".json"). cbn [processed]. split.
      * destruct (H3 f Hf) as (g' & _ & _ & Hlook). by rewrite Hlook.
      * apply (elem_of_listing ".html") in Hf as [_ [a ->]%endswith_spec].
        unfold output_name, Str.replace.
        destruct (replace_keeps_suffix a 0) as [out ->]; [lia|].
        apply endswith_spec. by exists out.
    + assert (is_Some (raw w !! g)) as [content Hcontent]
        by (by apply (elem_of_listing ".html") in Hg as [? _]).
      exists g, content. split_and!; [done..|].
      etrans; [exact Htext|]. by rewrite Hcontent.
Qed.

Lemma processor_then_analyzer_witness :
  ∃ w2, Analyzer.main "later" (main "now" raw_pages).2 = (Finished, w2).
Proof.
  destruct (processor_then_analyzer "now" "later" raw_pages
              (main "now" raw_pages).2) as [H _].
  - by vm_compute.
  - intros f file Hf. cbn [raw_pages processed] in Hf.
    exfalso. by rewrite lookup_empty in Hf.
  - exact H.
Defined.
End pipeline.

(** ** The text of a document *)

Section normal_text.
Import Processor.

(** [s.rstrip()], the second half of [Str.strip]. *)
Definition rstrip (s : str) : str := reverse (Str.lstrip (reverse s)).

Lemma lstrip_run (s : str) :
  ∃ a l, s = a ++ l ∧ Str.lstrip s = l
         ∧ Forall (λ c, Str.is_space c = true) a
         ∧ stops_here Str.is_space l.
Proof.
  induction s as [|c s (a & l & Hs & Hl & Ha & Hstop)].
  - by exists [], [].
  - cbn [Str.lstrip]. destruct (Str.is_space c) eqn:Hc.
    + exists (c :: a), l. split_and!; [by rewrite Hs at 1|done| |done].
      by constructor.
    + exists [], (c :: s). by split_and!.
Qed.

Lemma lstrip_app (x y : str) :
  Str.lstrip x ≠ [] → Str.lstrip (x ++ y) = Str.lstrip x ++ y.
Proof.
  induction x as [|c x IH]; [done|]. cbn [app Str.lstrip].
  by destruct (Str.is_space c).
Qed.

Lemma lstrip_app_spaces (x y : str) :
  Str.lstrip x = [] → Str.lstrip (x ++ y) = Str.lstrip y.
Proof.
  induction x as [|c x IH]; [done|]. cbn [app Str.lstrip].
  by destruct (Str.is_space c).
Qed.

Lemma rstrip_keeps (a : str) (c : ascii) :
  Str.is_space c = false → rstrip (a ++ [c]) = a ++ [c].
Proof.
  intros Hc. unfold rstrip. rewrite reverse_app.
  change (reverse [c]) with [c]. cbn [app Str.lstrip]. rewrite Hc.
  by rewrite reverse_cons, reverse_involutive.
Qed.

Lemma rstrip_app (a b : str) : rstrip b ≠ [] → rstrip (a ++ b) = a ++ rstrip b.
Proof.
  intros Hb. unfold rstrip in *. rewrite reverse_app, lstrip_app.
  - by rewrite reverse_app, reverse_involutive.
  - intros H. by rewrite H in Hb.
Qed.

Lemma rstrip_cons (c : ascii) (b : str) :
  rstrip b ≠ [] → rstrip (c :: b) = c :: rstrip b.
Proof. apply (rstrip_app [c] b). Qed.

Lemma rstrip_space (a b : str) (c : ascii) :
  Str.is_space c = true → rstrip b = [] → rstrip (a ++ c :: b) = rstrip a.
Proof.
  intros Hc Hb. unfold rstrip in *. rewrite reverse_app, reverse_cons.
  rewrite lstrip_app_spaces; [done|].
  rewrite lstrip_app_spaces.
  - cbn. by rewrite Hc.
  - apply (f_equal reverse) in Hb. by rewrite reverse_involutive in Hb.
Qed.

(** How [re.sub(r'\s+', ' ', s)] scans: a character that is no white
    space is kept, a run of white space becomes one space. *)
Lemma collapse_keeps (c : ascii) (s : str) :
  Str.is_space c = false →
  Re.sub spaces_re " " (c :: s) = c :: Re.sub spaces_re " " s.
Proof. intros Hc. apply sub_pass. cbn. by rewrite Hc. Qed.

Lemma collapse_run (c : ascii) (s : str) :
  Str.is_space c = true →
  Re.sub spaces_re " " (c :: s) = " "%char :: Re.sub spaces_re " " (Str.lstrip s).
Proof.
  intros Hc. destruct (lstrip_run s) as (a & l & -> & -> & Ha & Hstop).
  change (c :: a ++ l) with ((c :: a) ++ l).
  rewrite (sub_match _ _ (c :: a) l [c :: a]); [done|done| |].
  - unfold spaces_re. cbn [Re.exec Re.how Re.accepts app].
    rewrite plus_run; [done|by constructor|done|by eexists].
  - cbn. by rewrite app_nil_r.
Qed.

Lemma lstrip_collapse (s : str) :
  Str.lstrip (Re.sub spaces_re " " s) = Re.sub spaces_re " " (Str.lstrip s).
Proof.
  destruct s as [|c s]; [done|]. cbn [Str.lstrip].
  destruct (Str.is_space c) eqn:Hc.
  - rewrite collapse_run by done. cbn [Str.lstrip].
    change (Str.is_space " ") with true. cbn match.
    destruct (lstrip_run s) as (a & l & _ & -> & _ & Hstop).
    destruct l as [|d l]; [done|]. cbn in Hstop.
    rewrite collapse_keeps by done. cbn. by rewrite Hstop.
  - rewrite collapse_keeps by done. cbn. by rewrite Hc.
Qed.

Lemma join_tokens_nonempty (t : str) (ts : list str) :
  t ≠ [] → Str.join " " (t :: ts) ≠ [].
Proof. intros Ht. destruct ts; cbn; [done|]. by destruct t. Qed.

Lemma strip_collapse_go (s tok : str) :
  Forall (λ c, Str.is_space c = false) tok →
  rstrip (reverse tok
          ++ Re.sub spaces_re " "
               (match tok with [] => Str.lstrip s | _ => s end))
  = Str.join " " (Str.split_go tok s).
Proof.
  revert tok. induction s as [|c s IH]; intros tok Htok.
  - destruct tok as [|d tok]; [done|]. cbn [Str.split_go Str.join].
    change (Re.sub spaces_re " " []) with (@nil ascii).
    rewrite app_nil_r, reverse_cons. apply rstrip_keeps.
    by apply Forall_cons in Htok as [? _].
  - cbn [Str.split_go Str.lstrip]. destruct (Str.is_space c) eqn:Hc.
    + destruct tok as [|d tok]; [by apply (IH [])|].
      rewrite collapse_run by done.
      assert (IH0 : rstrip (Re.sub spaces_re " " (Str.lstrip s))
                    = Str.join " " (Str.split_go [] s))
        by (apply (IH []); constructor).
      pose proof (split_go_spec [] s ltac:(constructor)) as [Htoks _].
      destruct (Str.split_go [] s) as [|t ts].
      * cbn [Str.join] in *. rewrite rstrip_space by done.
        rewrite reverse_cons. apply rstrip_keeps.
        by apply Forall_cons in Htok as [? _].
      * apply Forall_cons in Htoks as [[Ht _] _].
        assert (Hne : rstrip (Re.sub spaces_re " " (Str.lstrip s)) ≠ [])
          by (rewrite IH0; by apply join_tokens_nonempty).
        rewrite rstrip_app.
        -- rewrite rstrip_cons by done. rewrite IH0.
           cbn [Str.join]. by destruct ts.
        -- by rewrite rstrip_cons.
    + assert (Hc' : Forall (λ c, Str.is_space c = false) (c :: tok))
        by (by constructor).
      pose proof (IH (c :: tok) Hc') as IH'. cbn match in IH'.
      rewrite <- IH', (reverse_cons tok c), <- app_assoc.
      destruct tok; by rewrite collapse_keeps.
Qed.

(** What the last two steps of [strip_html] do to a string: the result
    is its words, joined by single spaces. *)
Lemma strip_collapse (s : str) :
  Str.strip (Re.sub spaces_re " " s) = Str.join " " (Str.split s).
Proof.
  change (Str.strip (Re.sub spaces_re " " s))
    with (rstrip (Str.lstrip (Re.sub spaces_re " " s))).
  rewrite lstrip_collapse. apply (strip_collapse_go s []). constructor.
Qed.

Lemma split_joined (ts : list str) :
  Forall is_token ts → Str.split (Str.join " " ts) = ts.
Proof.
  induction 1 as [|t ts Ht Hts IH]; [done|].
  destruct ts as [|u ts]; [by apply split_token|].
  change (Str.join " " (t :: u :: ts))
    with (t ++ str_of " " ++ Str.join " " (u :: ts)).
  by rewrite split_token_then, IH.
Qed.

Lemma strip_joined (ts : list str) :
  Forall is_token ts → Str.strip (Str.join " " ts) = Str.join " " ts.
Proof.
  intros Hts.
  assert (Hl : Str.lstrip (Str.join " " ts) = Str.join " " ts).
  { destruct Hts as [|t ts [Hne Ht] _]; [done|].
    destruct t as [|d t]; [done|]. apply Forall_cons in Ht as [Hd _].
    destruct ts; cbn; by rewrite Hd. }
  change (rstrip (Str.lstrip (Str.join " " ts)) = Str.join " " ts).
  rewrite Hl. clear Hl. induction Hts as [|t ts [Hne Ht] Hts IH]; [done|].
  destruct ts as [|u ts].
  - cbn [Str.join]. unfold rstrip. apply Forall_reverse in Ht.
    destruct (reverse t) as [|c r] eqn:Hr.
    + apply (f_equal reverse) in Hr. by rewrite reverse_involutive in Hr.
    + apply Forall_cons in Ht as [Hc _]. cbn. rewrite Hc, <- Hr.
      apply reverse_involutive.
  - change (Str.join " " (t :: u :: ts))
      with (t ++ " "%char :: Str.join " " (u :: ts)).
    assert (Hne' : rstrip (Str.join " " (u :: ts)) ≠ []).
    { rewrite IH. apply join_tokens_nonempty.
      by apply Forall_cons in Hts as [[? _] _]. }
    rewrite rstrip_app; rewrite rstrip_cons by done; [|done].
    by rewrite IH.
Qed.

(** X13.  The text [strip_html] returns is in normal form: it is its
    own words joined by single spaces.  So it has no white space at
    either end, no white space other than single spaces between two
    words, and it is empty exactly when it has no word. *)
Theorem text_is_joined_words (html_content : str) :
  let text := (strip_html html_content).1.1 in
  Str.join " " (Str.split text) = text
  ∧ Forall plain_char text
  ∧ Str.strip text = text
  ∧ (word_count (get_statistics text) = 0 ↔ text = []).
Proof.
  cbn zeta. cbn [strip_html fst]. unfold plain_text.
  set (m := Re.sub tag_re " " (remove_blocks html_content)).
  assert (Hjoin : Str.join " " (Str.split (Str.strip (Re.sub spaces_re " " m)))
                  = Str.strip (Re.sub spaces_re " " m)).
  { rewrite strip_collapse at 1. rewrite split_joined by apply split_tokens.
    by rewrite strip_collapse. }
  split_and!.
  - done.
  - apply Forall_strip, sub_spaces_plain.
  - rewrite strip_collapse. apply strip_joined, split_tokens.
  - cbn [get_statistics word_count]. split.
    + intros H%nil_length_inv. rewrite <- Hjoin. by rewrite H.
    + by intros ->.
Qed.
End normal_text.

(** ** What a match consists of *)

Section match_sound.
Import Re.

(** The segment an atom may consume. *)
Definition seg_ok (a : atom) (seg : str) : Prop :=
  Forall (λ c, accepts a c = true) seg
  ∧ match how a with
    | One => length seg = 1
    | Opt => length seg ≤ 1
    | Plus => seg ≠ []
    | Star | LazyStar => True
    end.

(** One step of [exec]. *)
Definition exec_atom (a : atom) (k : str → found) : str → found :=
  match how a with
  | One => one (accepts a) k
  | Opt => opt (accepts a) k
  | Star => star (accepts a) k
  | Plus => plus (accepts a) k
  | LazyStar => lazy_star (accepts a) k
  end.

(** A match of an atom followed by [k] is a segment of the atom and a
    match of [k] on what follows it. *)
Definition splits_at (a : atom) (k : str → found) (s : str)
    (segs : list str) (rest : str) : Prop :=
  ∃ seg segs' s', segs = seg :: segs' ∧ s = seg ++ s'
                  ∧ k s' = Some (segs', rest) ∧ seg_ok a seg.

Section quantifier.
Variable ok : ascii → bool.
Variable k : str → found.

Lemma opened_sound (s : str) (segs : list str) (rest : str) :
  opened (k s) = Some (segs, rest) →
  ∃ segs', segs = [] :: segs' ∧ k s = Some (segs', rest).
Proof.
  destruct (k s) as [[segs' rest']|]; [|done]. cbn. intros [= <- <-].
  by exists segs'.
Qed.

Lemma pushed_sound (c : ascii) (r : found) (segs : list str) (rest : str) :
  pushed c r = Some (segs, rest) →
  ∃ seg segs', segs = (c :: seg) :: segs' ∧ r = Some (seg :: segs', rest).
Proof.
  destruct r as [[[|seg segs'] rest']|]; [done| |done]. cbn.
  intros [= <- <-]. by exists seg, segs'.
Qed.

Lemma star_sound (q : quant) (s : str) (segs : list str) (rest : str) :
  q = Star ∨ q = LazyStar →
  star ok k s = Some (segs, rest) → splits_at (Atom ok q) k s segs rest.
Proof.
  intros Hq. revert segs rest. induction s as [|c s IH]; intros segs rest H.
  - apply opened_sound in H as (segs' & -> & Hk).
    exists [], segs', []. split_and!; [done..|]. split; [done|].
    by destruct Hq as [-> | ->].
  - cbn [star] in H.
    assert (Hstop : opened (k (c :: s)) = Some (segs, rest) →
              splits_at (Atom ok q) k (c :: s) segs rest).
    { intros (segs' & -> & Hk)%opened_sound.
      exists [], segs', (c :: s). split_and!; [done..|]. split; [done|].
      by destruct Hq as [-> | ->]. }
    destruct (ok c) eqn:Hc; [|by apply Hstop].
    destruct (pushed c (star ok k s)) as [[segs1 rest1]|] eqn:Hp;
      [|by apply Hstop].
    cbn in H. injection H as <- <-.
    apply pushed_sound in Hp as (seg & segs' & -> & Hs).
    destruct (IH _ _ Hs) as (seg0 & segs0 & s0 & [= <- <-] & -> & Hk & Hseg & _).
    exists (c :: seg), segs', s0. split_and!; [done..|]. split.
    + by constructor.
    + by destruct Hq as [-> | ->].
Qed.

Lemma lazy_star_sound (s : str) (segs : list str) (rest : str) :
  lazy_star ok k s = Some (segs, rest) →
  splits_at (Atom ok LazyStar) k s segs rest.
Proof.
  revert segs rest. induction s as [|c s IH]; intros segs rest H.
  - cbn in H. destruct (opened (k [])) as [[segs1 rest1]|] eqn:Ho; [|done].
    cbn in H. injection H as <- <-.
    apply opened_sound in Ho as (segs' & -> & Hk).
    by exists [], segs', [].
  - cbn [lazy_star] in H.
    destruct (opened (k (c :: s))) as [[segs1 rest1]|] eqn:Ho.
    + cbn in H. injection H as <- <-.
      apply opened_sound in Ho as (segs' & -> & Hk).
      by exists [], segs', (c :: s).
    + cbn [orelse] in H. destruct (ok c) eqn:Hc; [|done].
      apply pushed_sound in H as (seg & segs' & -> & Hs).
      destruct (IH _ _ Hs) as (seg0 & segs0 & s0 & [= <- <-] & -> & Hk & Hseg & _).
      exists (c :: seg), segs', s0. split_and!; [done..|]. split; [|done].
      by constructor.
Qed.

Lemma exec_atom_sound (q : quant) (s : str) (segs : list str) (rest : str) :
  exec_atom (Atom ok q) k s = Some (segs, rest) →
  splits_at (Atom ok q) k s segs rest.
Proof.
  unfold exec_atom. cbn [how accepts]. destruct q.
  - destruct s as [|c s]; [done|]. cbn [one]. destruct (ok c) eqn:Hc; [|done].
    intros (seg & segs' & -> & (segs0 & [= -> ->] & Hk)%opened_sound)%pushed_sound.
    exists [c], segs0, s. split_and!; [done..|]. split; [|done].
    by repeat constructor.
  - assert (Hstop : opened (k s) = Some (segs, rest) →
              splits_at (Atom ok Opt) k s segs rest).
    { intros (segs' & -> & Hk)%opened_sound.
      exists [], segs', s. split_and!; [done..|]. split; [done|cbn; lia]. }
    destruct s as [|c s]; [done|]. cbn [opt]. destruct (ok c) eqn:Hc; [|done].
    destruct (pushed c (opened (k s))) as [[segs1 rest1]|] eqn:Hp; [|done].
    cbn. intros [= <- <-].
    apply pushed_sound in Hp
      as (seg & segs' & -> & (segs0 & [= -> ->] & Hk)%opened_sound).
    exists [c], segs0, s. split_and!; [done..|]. split; [|cbn; lia].
    by repeat constructor.
  - apply star_sound. by left.
  - destruct s as [|c s]; [done|]. cbn [plus]. destruct (ok c) eqn:Hc; [|done].
    intros (seg & segs' & -> & Hs)%pushed_sound.
    destruct (star_sound Star _ _ _ ltac:(by left) Hs)
      as (seg0 & segs0 & s0 & [= <- <-] & -> & Hk & Hseg & _).
    exists (c :: seg), segs', s0. split_and!; [done..|]. split; [|done].
    by constructor.
  - apply lazy_star_sound.
Qed.
End quantifier.

Lemma exec_cons (a : atom) (p : regex) :
  exec (a :: p) = exec_atom a (exec p).
Proof. done. Qed.

(** A match consists of one segment for each atom, in order, each
    made of characters of the atom's class and as long as its
    quantifier allows; together they are the text matched. *)
Lemma exec_sound (p : regex) (s : str) (segs : list str) (rest : str) :
  exec p s = Some (segs, rest) →
  Forall2 seg_ok p segs ∧ s = concat segs ++ rest.
Proof.
  revert s segs. induction p as [|[ok q] p IH]; intros s segs H.
  - cbn in H. injection H as <- <-. by split; [constructor|].
  - rewrite exec_cons in H.
    apply exec_atom_sound in H as (seg & segs' & s' & -> & -> & Hk & Hseg).
    destruct (IH _ _ Hk) as [Hsegs ->]. split; [by constructor|].
    cbn. by rewrite app_assoc.
Qed.

(** A pattern that ends with a greedy [+] stops only where the input
    ends or the next character is not of the class. *)
Lemma star_greedy (ok : ascii → bool) (s : str) (segs : list str) (rest : str) :
  star ok (exec []) s = Some (segs, rest) → stops_here ok rest.
Proof.
  revert segs. induction s as [|c s IH]; intros segs.
  - cbn. by intros [= <- <-].
  - cbn [star]. destruct (ok c) eqn:Hc; [|cbn; by intros [= <- <-]].
    destruct (star_total ok (exec []) s) as (seg & rest' & Hs); [done|].
    rewrite Hs. cbn. intros [= <- <-]. by apply (IH [seg]).
Qed.

Lemma exec_greedy (p : regex) (ok : ascii → bool) (s : str)
    (segs : list str) (rest : str) :
  exec (p ++ [Atom ok Plus]) s = Some (segs, rest) → stops_here ok rest.
Proof.
  revert s segs. induction p as [|[ok' q] p IH]; intros s segs H.
  - cbn [app exec how accepts] in H. destruct s as [|c s]; [done|].
    cbn [plus] in H. destruct (ok c); [|done].
    apply pushed_sound in H as (seg & segs' & -> & Hs).
    by apply star_greedy in Hs.
  - cbn [app] in H. rewrite exec_cons in H.
    apply exec_atom_sound in H as (seg & segs' & s' & -> & -> & Hk & Hseg).
    by apply IH in Hk.
Qed.

(** Every string [findall] lists is the group of a match that begins
    somewhere in the input. *)
Lemma findall_sound (p : regex) (g skip : nat) (s v : str) :
  v ∈ findall_from p g skip s →
  ∃ pre t r, s = pre ++ t ∧ exec p t = Some r ∧ v = group g r.
Proof.
  revert skip. induction s as [|c s IH]; intros skip.
  - cbn. destruct (exec p []) as [r|] eqn:Hr; [|by intros ?%elem_of_nil].
    intros ->%list_elem_of_singleton. by exists [], [], r.
  - assert (Hlater : ∀ n, v ∈ findall_from p g n s →
              ∃ pre t r, c :: s = pre ++ t ∧ exec p t = Some r ∧ v = group g r).
    { intros n (pre & t & r & -> & Hr & Hv)%IH. by exists (c :: pre), t, r. }
    cbn [findall_from]. destruct skip as [|n]; [|apply Hlater].
    destruct (exec p (c :: s)) as [r|] eqn:Hr; [|apply Hlater].
    intros [->|Hv]%elem_of_cons; [|by apply (Hlater _ Hv)].
    by exists [], (c :: s), r.
Qed.

Lemma lit_ci_sound (lit : str) (segs : list str) :
  Forall2 seg_ok (lit_ci lit) segs →
  ci_eq (concat segs) lit ∧ length segs = length lit.
Proof.
  revert segs. induction lit as [|l lit IH]; intros segs H.
  - by apply Forall2_nil_inv_l in H as ->.
  - cbn [lit_ci map] in H. fold (lit_ci lit) in H.
    apply Forall2_cons_inv_l in H as (seg & segs' & [Hseg Hlen] & Hsegs & ->).
    destruct (IH _ Hsegs) as [Heq Hl]. cbn [how] in Hlen.
    destruct seg as [|c [|? ?]]; [done| |done].
    apply Forall_cons in Hseg as [Hc _]. cbn [accepts] in Hc.
    unfold is_ci, Str.eqb in Hc. apply bool_decide_eq_true_1 in Hc.
    split; [|cbn; by rewrite Hl]. unfold ci_eq in *. cbn. by rewrite Hc, Heq.
Qed.
End match_sound.

Section attribute_sound.
Import Processor.

(** [v] stands in [markup] as the value of the attribute [name]:
    after the name with its [=] in any letter case and at most one
    quote, and up to the end of the input or a quote, a space or
    [>]. *)
Definition attribute_at (name markup v : str) : Prop :=
  ∃ pre key q post,
    markup = pre ++ key ++ q ++ v ++ post
    ∧ ci_eq key name ∧ opening_quote q = true
    ∧ is_value v = true ∧ ends_value post = true.

Lemma attr_sound (name markup v : str) :
  v ∈ Re.findall (attr_re name) (attr_group name) markup →
  attribute_at name markup v.
Proof.
  intros (pre & t & [segs post] & -> & Hexec & ->)%findall_sound.
  assert (Hstop : stops_here (Re.none_of stops) post).
  { apply (exec_greedy (Re.lit_ci name ++ [Re.Atom (Re.one_of quotes) Re.Opt])
             _ t segs).
    rewrite <- app_assoc. exact Hexec. }
  apply exec_sound in Hexec as [Hsegs ->].
  apply Forall2_app_inv_l in Hsegs as (ksegs & vsegs & Hkey & Hval & ->).
  apply lit_ci_sound in Hkey as [Hkey Hlen].
  apply Forall2_cons_inv_l in Hval as (q & vsegs' & [Hq Hqlen] & Hval & ->).
  apply Forall2_cons_inv_l in Hval as (v & vsegs'' & [Hv Hvne] & Hnil & ->).
  apply Forall2_nil_inv_l in Hnil as ->.
  cbn [Re.how Re.accepts] in *.
  exists pre, (concat ksegs), q, post. unfold Re.group, attr_group. cbn [fst].
  rewrite lookup_app_r by lia.
  replace (length name + 1 - length ksegs) with 1 by lia. cbn [lookup].
  change ([q; v] !! 1) with (Some v). cbn [default].
  split_and!.
  - rewrite concat_app. cbn. by rewrite app_nil_r, <- !app_assoc.
  - done.
  - destruct q as [|c [|? ?]]; [done| |cbn in Hqlen; lia].
    by apply Forall_cons in Hq as [? _].
  - unfold is_value. apply andb_true_iff. split; [by destruct v|].
    clear Hvne. induction Hv as [|c v Hc Hv IH]; [done|].
    apply andb_true_iff. by split.
  - destruct post as [|c post]; [done|]. cbn in *.
    unfold Re.none_of in Hstop. unfold Re.one_of.
    by apply negb_false_iff in Hstop.
Qed.

(** X14.  Every link and every image [strip_html] returns stands in
    the markup, as it is after the script and style blocks are
    removed, as the value of an [href=] or [src=]: it is not empty,
    holds no quote, space or [>], and runs up to the next such
    character or the end. *)
Theorem attribute_values_sound (html_content : str) :
  Forall (attribute_at "href=" (remove_blocks html_content))
         (strip_html html_content).1.2
  ∧ Forall (attribute_at "src=" (remove_blocks html_content))
           (strip_html html_content).2.
Proof.
  split; apply Forall_forall; intros v Hv; by apply attr_sound.
Qed.
End attribute_sound.

(** ** What the Processor keeps and what it replaces *)

Section only_deletes.
Import Processor.
Variable P : ascii → Prop.
Context `{!∀ c, Decision (P c)}.

Lemma sublist_filter_cons (l s : str) (c : ascii) :
  l `sublist_of` filter P s → l `sublist_of` filter P (c :: s).
Proof.
  intros Hl. rewrite filter_cons. case_decide; [by apply sublist_cons|done].
Qed.

(** A substitution whose replacement has no character of a class
    leaves of this class a subsequence of what the input has. *)
Lemma sub_from_sublist (p : Re.regex) (repl : str) (skip : nat) (s : str) :
  filter P repl = [] →
  filter P (Re.sub_from p repl skip s) `sublist_of` filter P s.
Proof.
  intros Hrepl. revert skip. induction s as [|c s IH]; intros skip.
  - cbn [Re.sub_from]. destruct (Re.exec p []); [by rewrite Hrepl|done].
  - cbn [Re.sub_from]. destruct skip as [|n]; [|apply sublist_filter_cons, IH].
    destruct (Re.match_length p (c :: s)) as [[|n]|].
    + rewrite filter_app, Hrepl, !filter_cons. cbn [app].
      case_decide; [by apply sublist_skip|apply IH].
    + rewrite filter_app, Hrepl. apply sublist_filter_cons, IH.
    + rewrite !filter_cons. case_decide; [by apply sublist_skip|apply IH].
Qed.
End only_deletes.

Section kept_text.
Import Processor.

(** X15.  [strip_html] only deletes characters or turns them into
    white space: the characters of the words of its text, in their
    order, are a subsequence of the characters of the input that are no
    white space. *)
Theorem text_only_deletes (html_content : str) :
  concat (Str.split (strip_html html_content).1.1)
  `sublist_of` filter (λ c, nonspace c = true) html_content.
Proof.
  cbn [strip_html fst]. unfold plain_text.
  rewrite strip_collapse, split_joined by apply split_tokens.
  rewrite split_concat. unfold remove_blocks, Re.sub.
  etrans; [by apply sub_from_sublist|].
  etrans; [by apply sub_from_sublist|].
  by apply sub_from_sublist.
Qed.
End kept_text.

Section rerun.
Import ProcessorMain.

(** What the loop leaves under the output names does not depend on
    what was there. *)
Lemma loop_overwrites (now : str) (w : shared) (files : list str)
    (d d' : gmap str Json.file) (ps ps' : list str) :
  (∀ name, (∀ f, f ∈ files → output_name f ≠ name) → d !! name = d' !! name) →
  (foldl (step now w) (d, ps) files).1 = (foldl (step now w) (d', ps') files).1.
Proof.
  revert d d' ps ps'. induction files as [|x files IH]; intros d d' ps ps' H.
  - cbn. apply map_eq. intros name. apply H. by intros f ?%elem_of_nil.
  - cbn [foldl]. apply IH. intros name Hname. cbn [step fst].
    destruct (decide (output_name x = name)) as [<-|Hx].
    + by rewrite !lookup_insert_eq.
    + rewrite !lookup_insert_ne by done. apply H.
      intros f [->|Hf]%elem_of_cons; [done|by apply Hname].
Qed.

(** X16.  A later run of the Processor on the same raw pages replaces
    all that an earlier run wrote: after the two runs the state is as
    if only the later one had taken place. *)
Theorem processor_rerun (now now' : str) (w : shared) :
  main now' (main now w).2 = main now' w.
Proof.
  unfold main at 2. destruct (fetch_complete w) eqn:Hfetch; [|done].
  pose proof (loop_spec now w (html_files w) (processed w) []) as (_ & Hkeep & _).
  destruct (foldl (step now w) (processed w, []) (html_files w))
    as [dir paths] eqn:Hloop.
  cbn [snd fst] in *. unfold main. cbn [fetch_complete raw processed final_report].
  rewrite Hfetch.
  change (html_files (Shared (raw w) true dir _ (final_report w)))
    with (html_files w).
  change (step now' (Shared (raw w) true dir _ (final_report w)))
    with (step now' w).
  pose proof (loop_spec now' w (html_files w) dir []) as (Hp1 & _ & _).
  pose proof (loop_spec now' w (html_files w) (processed w) []) as (Hp2 & _ & _).
  pose proof (loop_overwrites now' w (html_files w) dir (processed w) [] [] Hkeep)
    as Hdir.
  destruct (foldl (step now' w) (dir, []) (html_files w)) as [dir1 paths1].
  destruct (foldl (step now' w) (processed w, []) (html_files w))
    as [dir2 paths2].
  cbn [fst snd] in *. by rewrite Hdir, Hp1, Hp2.
Qed.
End rerun.
